(** * Multi-objective HPO helpers: [autogluon.core.utils.mo_hbo_utils]

    A shallow embedding of the three functions of the module
    ([retrieve_pareto_front], [prepare_sign_vector] and
    [uniform_from_unit_simplex]) together with the properties of them that
    the specification states.

    Conventions of the embedding.
    - Python dictionaries are insertion-ordered association lists with
      unique keys ([dict], [Dict.wf]); a subscript [d[k]] raises [KeyError]
      on a missing key.
    - Exceptions are values of [exn]; a function that may raise returns a
      [result].
    - An objective value is a binary64 float ([xnum]): a number [Fin q],
      an infinity or NaN, compared as IEEE 754 compares them (every
      comparison with NaN is false).  The numbers [Fin q] range over the
      rationals, which include every finite binary64 value; the product by
      [1.0] or [-1.0] and the comparisons, the only operations of the
      Pareto filter, are exact on binary64 values.  A Python [int] in a
      record is outside the model: [np.array] converts it to the dtype of
      the array, which rounds an [int] above [2^53].
    - The arithmetic of the simplex sampler is modelled without rounding;
      the special values that a division by zero produces are kept.  The
      literals [1.0] and [-1.0] are written [1] and [-1].
    - A numpy array keeps its shape: one-dimensional ([Arr1]) or a matrix
      given by its rows ([Arr2]); broadcasting follows numpy's rule. *)

From Stdlib Require Import String List Bool Arith ZArith QArith Qabs Lia Lqa.
From Stdlib Require Import Permutation Sorted.
Import ListNotations.

Local Open Scope Q_scope.
Local Open Scope list_scope.

(** ** Exceptions and results *)

Inductive exn : Type :=
| KeyError
| ValueError
| IndexError
| AxisError
| AssertionError.

Inductive result (A : Type) : Type :=
| Ok (a : A)
| Raise (e : exn).

Arguments Ok {A} a.
Arguments Raise {A} e.

Definition bind {A B : Type} (c : result A) (k : A -> result B) : result B :=
  match c with
  | Ok a => k a
  | Raise e => Raise e
  end.

Notation "x <- c ;; k" := (bind c (fun x => k))
  (at level 61, c at next level, right associativity).

(** A list comprehension whose body may raise: elements are evaluated from
    left to right and the first exception aborts the comprehension. *)
Fixpoint comprehension {A B : Type} (f : A -> result B) (l : list A)
  : result (list B) :=
  match l with
  | [] => Ok []
  | a :: l' => b <- f a ;; bs <- comprehension f l' ;; Ok (b :: bs)
  end.

(** ** Dictionaries *)

Module Dict.

Definition dict (V : Type) : Type := list (string * V).

Definition keys {V : Type} (d : dict V) : list string := map fst d.

Fixpoint get {V : Type} (d : dict V) (k : string) : option V :=
  match d with
  | [] => None
  | (k', v) :: d' => if String.eqb k' k then Some v else get d' k
  end.

(** [d[k] = v]: an existing key keeps its position, a new key goes last. *)
Fixpoint set {V : Type} (d : dict V) (k : string) (v : V) : dict V :=
  match d with
  | [] => [(k, v)]
  | (k', v') :: d' =>
      if String.eqb k' k then (k', v) :: d' else (k', v') :: set d' k v
  end.

(** [d[k]] as an expression. *)
Definition subscript {V : Type} (d : dict V) (k : string) : result V :=
  match get d k with
  | Some v => Ok v
  | None => Raise KeyError
  end.

Fixpoint unique (l : list string) : bool :=
  match l with
  | [] => true
  | k :: l' => negb (existsb (String.eqb k) l') && unique l'
  end.

(** The invariant of a Python dictionary: no key occurs twice. *)
Definition wf {V : Type} (d : dict V) : Prop := unique (keys d) = true.

End Dict.

Import Dict.

(** ** [prepare_sign_vector] *)

Definition converter : dict Q :=
  [("MIN"%string, -1); ("MAX"%string, 1)].

(** The comprehension [[converter[objectives[k]] for k in objectives]]. *)
Definition sign_entries (objectives : dict string) : result (list Q) :=
  comprehension
    (fun k => d <- subscript objectives k ;; subscript converter d)
    (keys objectives).

Definition prepare_sign_vector (objectives : dict string) : result (list Q) :=
  match sign_entries objectives with
  | Ok sign_vector => Ok sign_vector
  | Raise KeyError => Raise ValueError
  | Raise e => Raise e
  end.

(** The two recognised direction literals. *)
Definition valid_direction (d : string) : Prop :=
  d = "MIN"%string \/ d = "MAX"%string.

Definition sign_of (d : string) : Q :=
  if String.eqb d "MIN" then -1 else 1.

(** ** binary64 values *)

(** A binary64 value: a number, or one of the special values that a
    division by zero or a sum of them yields. *)
Inductive xnum : Type :=
| Fin (q : Q)
| PInf
| NInf
| NaN.

Definition Qlt_bool (x y : Q) : bool :=
  (Qnum x * QDen y <? Qnum y * QDen x)%Z.

(** Not NaN. *)
Definition number (x : xnum) : bool :=
  match x with
  | NaN => false
  | _ => true
  end.

(** [a <= b] *)
Definition xleb (a b : xnum) : bool :=
  match a, b with
  | NaN, _ | _, NaN => false
  | NInf, _ | _, PInf => true
  | Fin x, Fin y => Qle_bool x y
  | _, _ => false
  end.

(** [a < b] *)
Definition xltb (a b : xnum) : bool :=
  match a, b with
  | NaN, _ | _, NaN => false
  | PInf, _ | _, NInf => false
  | Fin x, Fin y => Qlt_bool x y
  | _, _ => true
  end.

(** [a * s] for a number [s]; the filter calls it with [s] equal to [1.0]
    or [-1.0], for which the product of a binary64 value is exact. *)
Definition xmul (a : xnum) (s : Q) : xnum :=
  match a with
  | Fin x => Fin (x * s)
  | NaN => NaN
  | PInf =>
      if Qlt_bool 0 s then PInf else if Qlt_bool s 0 then NInf else NaN
  | NInf =>
      if Qlt_bool 0 s then NInf else if Qlt_bool s 0 then PInf else NaN
  end.

(** No entry of the rows is NaN. *)
Definition no_nan (rows : list (list xnum)) : bool :=
  forallb (forallb number) rows.

(** ** numpy arrays *)

Definition enumerate {A : Type} (l : list A) : list (nat * A) :=
  combine (seq 0 (length l)) l.

(** [l[i]] on a Python list or along the first axis of an array. *)
Definition item {A : Type} (l : list A) (i : nat) : result A :=
  match nth_error l i with
  | Some a => Ok a
  | None => Raise IndexError
  end.

Inductive ndarray : Type :=
| Arr1 (elems : list xnum)
| Arr2 (rows : list (list xnum)).

(** [np.array(vals)] for a list of rows of floats of one length: an array
    of dtype float64 that holds the floats as they are.  The empty list
    gives the one-dimensional array of shape [(0,)]. *)
Definition np_array (vals : list (list xnum)) : ndarray :=
  match vals with
  | [] => Arr1 []
  | _ :: _ => Arr2 vals
  end.

(** [a.shape[0]] *)
Definition shape0 (a : ndarray) : nat :=
  match a with
  | Arr1 elems => length elems
  | Arr2 rows => length rows
  end.

(** [a[e][i]]; a one-dimensional array has scalars as items, which cannot
    be indexed. *)
Definition item2 (a : ndarray) (e i : nat) : result xnum :=
  match a with
  | Arr1 _ => Raise IndexError
  | Arr2 rows => row <- item rows e ;; item row i
  end.

(** The entry-wise product of two vectors of one length. *)
Definition zip_mul (row : list xnum) (w : list Q) : list xnum :=
  map (fun xy => xmul (fst xy) (snd xy)) (combine row w).

(** The product of an axis of length [length row] with a vector [w] under
    numpy's broadcasting rule: the two lengths must agree, or one of them
    must be [1]. *)
Definition broadcast_mul (row : list xnum) (w : list Q)
  : result (list xnum) :=
  if length row =? length w then Ok (zip_mul row w)
  else if length w =? 1 then Ok (map (fun x => xmul x (hd 0 w)) row)
  else if length row =? 1 then Ok (map (fun y => xmul (hd (Fin 0) row) y) w)
  else Raise ValueError.

(** [a * w] for an array [a] and a one-dimensional [w]. *)
Definition np_mul (a : ndarray) (w : list Q) : result ndarray :=
  match a with
  | Arr1 elems => r <- broadcast_mul elems w ;; Ok (Arr1 r)
  | Arr2 rows =>
      rs <- comprehension (fun row => broadcast_mul row w) rows ;; Ok (Arr2 rs)
  end.

(** [-w] *)
Definition np_negative (w : list Q) : list Q := map Qopp w.

(** ** The masking loop of [retrieve_pareto_front] *)

(** [np.any(p <= c)] for one row [p]. *)
Definition any_le (p c : list xnum) : bool :=
  existsb (fun xy => xleb (fst xy) (snd xy)) (combine p c).

(** [a_vals[eff_mask]]: the rows at the positions where the mask is set. *)
Fixpoint select (eff_mask : list bool) (a_vals : list (list xnum))
  : list (list xnum) :=
  match eff_mask, a_vals with
  | b :: m, p :: ps => if b then p :: select m ps else select m ps
  | _, _ => []
  end.

(** [np.any(sel <= c, axis=1)] *)
Definition any_le_rows (sel : list (list xnum)) (c : list xnum)
  : list bool :=
  map (fun p => any_le p c) sel.

(** [eff_mask[eff_mask] = new]: the positions where the mask is set receive
    the entries of [new] in order, the others stay unset.  [new] has one
    entry per set position wherever the loop calls it
    ([any_le_rows_select_length]). *)
Fixpoint assign_masked (eff_mask new : list bool) : list bool :=
  match eff_mask with
  | [] => []
  | false :: m => false :: assign_masked m new
  | true :: m =>
      match new with
      | v :: new' => v :: assign_masked m new'
      | [] => true :: assign_masked m []
      end
  end.

Fixpoint mask_loop (a_vals : list (list xnum))
  (todo : list (nat * list xnum)) (eff_mask : list bool) : list bool :=
  match todo with
  | [] => eff_mask
  | (i, c) :: todo' =>
      if nth i eff_mask false then
        mask_loop a_vals todo'
          (assign_masked eff_mask (any_le_rows (select eff_mask a_vals) c))
      else mask_loop a_vals todo' eff_mask
  end.

(** [np.ones(n, dtype=bool)] *)
Definition np_ones (n : nat) : list bool := repeat true n.

(** Lines 40-43.  Iterating over a one-dimensional array yields scalars, on
    which [np.any(..., axis=1)] raises; the loop body is not reached when
    the array is empty. *)
Definition efficient_mask (n : nat) (a_vals : ndarray) : result (list bool) :=
  match a_vals with
  | Arr2 rows => Ok (mask_loop rows (enumerate rows) (np_ones n))
  | Arr1 [] => Ok (np_ones n)
  | Arr1 (_ :: _) => Raise AxisError
  end.

(** [[i for i, b in enumerate(eff_mask) if b]] *)
Definition true_indices (eff_mask : list bool) : list nat :=
  map fst (filter snd (enumerate eff_mask)).

(** ** [retrieve_pareto_front] *)

(** A training history: per task, the records of its steps; a record maps
    a name to a float. *)
Definition history : Type := dict (list (dict xnum)).

(** The (task, step, record) triples in the order of the two nested loops
    of lines 30-31; [step] is the 0-based counter of [enumerate]. *)
Definition steps (training_history : history)
  : list (string * nat * dict xnum) :=
  flat_map
    (fun item =>
       map (fun sr => (fst item, fst sr, snd sr)) (enumerate (snd item)))
    training_history.

(** [[res_dict[k] for k in objectives]] *)
Definition objective_values (objectives : dict string)
  (res_dict : dict xnum) : result (list xnum) :=
  comprehension (subscript res_dict) (keys objectives).

(** Lines 27-33: one row of values and one reference per step. *)
Definition collect (training_history : history) (objectives : dict string)
  : result (list (list xnum * (string * nat))) :=
  comprehension
    (fun tsr =>
       let '(task_id, step, res_dict) := tsr in
       row <- objective_values objectives res_dict ;;
       Ok (row, (task_id, step + 1)%nat))
    (steps training_history).

(** Lines 34-44: the array of values and the indices of the rows that the
    mask keeps. *)
Definition efficient_indices (vals : list (list xnum))
  (objectives : dict string) : result (ndarray * list nat) :=
  let vals := np_array vals in
  sign_vector <- prepare_sign_vector objectives ;;
  a_vals <- np_mul vals (np_negative sign_vector) ;;
  eff_mask <- efficient_mask (shape0 vals) a_vals ;;
  Ok (vals, true_indices eff_mask).

Inductive value : Type :=
| VRef (task_id : string) (step : nat)
| VNum (x : xnum).

(** Lines 49-50. *)
Fixpoint set_objectives (vals : ndarray) (e : nat)
  (todo : list (nat * string)) (r : dict value) : result (dict value) :=
  match todo with
  | [] => Ok r
  | (i, o) :: todo' =>
      x <- item2 vals e i ;; set_objectives vals e todo' (Dict.set r o (VNum x))
  end.

(** Lines 48-50: the record of the row of index [e]. *)
Definition emit (objectives : dict string) (vals : ndarray)
  (refs : list (string * nat)) (e : nat) : result (dict value) :=
  ref <- item refs e ;;
  set_objectives vals e (enumerate (keys objectives))
    [("task_id-ressource"%string, VRef (fst ref) (snd ref))].

(** Lines 27-44 on their own: the indices, in the order of the flattening,
    of the points whose records make up the front. *)
Definition surviving (training_history : history)
  (objectives : dict string) : result (list nat) :=
  points <- collect training_history objectives ;;
  vi <- efficient_indices (map fst points) objectives ;;
  Ok (snd vi).

Definition retrieve_pareto_front (training_history : history)
  (objectives : dict string) : result (list (dict value)) :=
  points <- collect training_history objectives ;;
  let refs := map snd points in
  vi <- efficient_indices (map fst points) objectives ;;
  comprehension (emit objectives (fst vi) refs) (snd vi).

(** ** [uniform_from_unit_simplex] *)

(** [a / b] on two numbers.  The divisor of the sampler is never negative,
    so a zero divisor is [+0.0]. *)
Definition xdiv (a b : Q) : xnum :=
  if Qeq_bool b 0 then
    if Qeq_bool a 0 then NaN else if Qlt_bool 0 a then PInf else NInf
  else Fin (a / b).

Definition xadd (a b : xnum) : xnum :=
  match a, b with
  | Fin x, Fin y => Fin (x + y)
  | NaN, _ | _, NaN => NaN
  | PInf, NInf | NInf, PInf => NaN
  | PInf, _ | _, PInf => PInf
  | NInf, _ | _, NInf => NInf
  end.

(** [a - q] for a number [q]. *)
Definition xsub (a : xnum) (q : Q) : xnum :=
  match a with
  | Fin x => Fin (x - q)
  | other => other
  end.

(** [a < q] for a number [q]; every comparison with NaN is false. *)
Definition xlt (a : xnum) (q : Q) : bool :=
  match a with
  | Fin x => Qlt_bool x q
  | NInf => true
  | PInf | NaN => false
  end.

(** Python's [sum]: a left fold from [0]. *)
Definition py_sum (sample : list xnum) : xnum :=
  fold_left xadd sample (Fin 0).

Fixpoint insert (x : Q) (l : list Q) : list Q :=
  match l with
  | [] => [x]
  | y :: l' => if Qle_bool x y then x :: l else y :: insert x l'
  end.

(** [np.sort]: the values in ascending order. *)
Fixpoint np_sort (l : list Q) : list Q :=
  match l with
  | [] => []
  | x :: l' => insert x (np_sort l')
  end.

(** [np.diff(l)]: the differences of consecutive entries. *)
Fixpoint np_diff (l : list Q) : list Q :=
  match l with
  | x :: (y :: _) as l' => (y - x) :: np_diff l'
  | _ => []
  end.

(** [np.diff(l, prepend=0)] *)
Definition np_diff_prepend0 (l : list Q) : list Q := np_diff (0 :: l).

(** [l[-1]] *)
Definition last_item (l : list Q) : result Q :=
  match l with
  | [] => Raise IndexError
  | _ :: _ => Ok (last l 0)
  end.

(** [np.random.uniform(size=dim)]: the generator is the sequence [rng] of
    the values it draws, each in the half-open interval from 0 to 1. *)
Definition random_uniform (rng : nat -> Q) (dim : nat) : list Q :=
  map rng (seq 0 dim).

(** Lines 98-99: the sample before the self-check. *)
Definition normalized_gaps (uni : list Q) : result (list xnum) :=
  let uni := np_sort uni in
  let gaps := np_diff_prepend0 uni in
  m <- last_item uni ;;
  Ok (map (fun g => xdiv g m) gaps).

(** The condition of the [assert] of line 100. *)
Definition integrity_check (sample : list xnum) : bool :=
  xlt (xsub (py_sum sample) 1) 1e-6.

Definition uniform_from_unit_simplex (rng : nat -> Q) (dim : nat)
  : result (list xnum) :=
  sample <- normalized_gaps (random_uniform rng dim) ;;
  if integrity_check sample then Ok sample else Raise AssertionError.

(** The larger of two numbers, and the largest entry of a list. *)
Definition Qmax2 (x y : Q) : Q := if Qle_bool x y then y else x.

Fixpoint largest (l : list Q) : Q :=
  match l with
  | [] => 0
  | x :: l' =>
      match l' with
      | [] => x
      | _ :: _ => Qmax2 x (largest l')
      end
  end.

(** Entries in ascending order. *)
Fixpoint ascending (l : list Q) : Prop :=
  match l with
  | x :: (y :: _) as l' => x <= y /\ ascending l'
  | _ => True
  end.

(** The exact sum of a list of numbers. *)
Definition Qsum (l : list Q) : Q := fold_right Qplus 0 l.

(** ** Dominance relations of the specification *)

(** [q] is strictly smaller than [p] in every objective. *)
Definition all_lt (q p : list xnum) : bool :=
  forallb (fun xy => xltb (fst xy) (snd xy)) (combine q p).

(** [q] dominates [p]: no worse in every objective and strictly better in
    at least one (smaller is better). *)
Definition dominates (q p : list xnum) : bool :=
  forallb (fun xy => xleb (fst xy) (snd xy)) (combine q p)
  && existsb (fun xy => xltb (fst xy) (snd xy)) (combine q p).

(** The order-independent filter for a relation [better]: the row of index
    [i] is kept when no row of another index is [better] than it. *)
Definition beaten_by_other (better : list xnum -> list xnum -> bool)
  (a_vals : list (list xnum)) (i : nat) (p : list xnum) : bool :=
  existsb (fun jq => negb (fst jq =? i)%nat && better (snd jq) p)
    (enumerate a_vals).

Definition filter_by (better : list xnum -> list xnum -> bool)
  (a_vals : list (list xnum)) : list bool :=
  map (fun ip => negb (beaten_by_other better a_vals (fst ip) (snd ip)))
    (enumerate a_vals).

(** The filter of strong dominance, in the specification's words: keep [p]
    when no other point is strictly smaller in every objective. *)
Definition strong_dominance_filter : list (list xnum) -> list bool :=
  filter_by all_lt.

(** The standard Pareto filter, in the specification's words: keep [p] when
    no other point dominates it. *)
Definition pareto_dominance_filter : list (list xnum) -> list bool :=
  filter_by dominates.

(** The vector of a point in the minimisation convention of line 39, for
    a spec with recognised directions. *)
Definition signed (objectives : dict string) (row : list xnum)
  : list xnum :=
  zip_mul row (np_negative (map (fun kd => sign_of (snd kd)) objectives)).

(** The rows of a matrix with [k] columns. *)
Definition matrix (k : nat) (a_vals : list (list xnum)) : Prop :=
  Forall (fun p => length p = k) a_vals.

(** What the loop maintains after the rows of the indices [visited] have
    been the comparison point: a row still marked is not beaten by any
    visited row, and an unmarked row is beaten by a visited one. *)
Definition mask_inv (a_vals : list (list xnum)) (visited : list nat)
  (m : list bool) : Prop :=
  length m = length a_vals
  /\ forall j p, nth_error a_vals j = Some p ->
      (nth j m false = true ->
       forall i c, In i visited -> nth_error a_vals i = Some c ->
                   all_lt c p = false)
      /\ (nth j m false = false ->
          exists i c, In i visited /\ nth_error a_vals i = Some c
                      /\ all_lt c p = true).

(** [u] is strictly better than [v] in every objective, read on the
    original values: smaller under ["MIN"], larger under any other
    direction that [sign_of] maps to [1]. *)
Fixpoint better_everywhere (objectives : dict string) (u v : list xnum)
  : bool :=
  match objectives, u, v with
  | (_, d) :: objectives', x :: u', y :: v' =>
      (if String.eqb d "MIN" then xltb x y else xltb y x)
      && better_everywhere objectives' u' v'
  | _, _, _ => true
  end.


(** What the loop maintains on every input, NaN included: among the rows
    still marked, each one passed the test of line 43 against every
    visited row that is still marked. *)
Definition kept_inv (a_vals : list (list xnum)) (visited : list nat)
  (m : list bool) : Prop :=
  length m = length a_vals
  /\ forall j p i c,
      nth_error a_vals j = Some p -> nth j m false = true ->
      In i visited -> nth_error a_vals i = Some c -> nth i m false = true ->
      any_le p c = true.

(** A row that another row beats in every objective does not outlive it:
    it is unmarked when the other is, and once the other was visited. *)
Definition beaten_inv (a_vals : list (list xnum)) (visited : list nat)
  (m : list bool) : Prop :=
  length m = length a_vals
  /\ forall j p h q,
      nth_error a_vals j = Some p -> nth_error a_vals h = Some q ->
      all_lt q p = true ->
      (nth j m false = true -> nth h m false = true)
      /\ (In h visited -> nth j m false = false).

(** * Properties *)

(** ** Comprehensions and dictionaries *)

Lemma comprehension_map {A B C : Type} (h : A -> B) (f : B -> result C)
  (l : list A) :
  comprehension f (map h l) = comprehension (fun a => f (h a)) l.
Proof.
  induction l as [|a l IH]; simpl; [reflexivity|].
  now rewrite IH.
Qed.

Lemma comprehension_ext_in {A B : Type} (f g : A -> result B) (l : list A) :
  (forall a, In a l -> f a = g a) ->
  comprehension f l = comprehension g l.
Proof.
  induction l as [|a l IH]; simpl; intros Hfg; [reflexivity|].
  rewrite Hfg by now left.
  rewrite IH; [reflexivity|].
  intros b Hb. apply Hfg. now right.
Qed.

Lemma comprehension_pure {A B : Type} (f : A -> B) (l : list A) :
  comprehension (fun a => Ok (f a)) l = Ok (map f l).
Proof.
  induction l as [|a l IH]; simpl; [reflexivity|].
  now rewrite IH.
Qed.

Lemma comprehension_length {A B : Type} (f : A -> result B) (l : list A)
  (bs : list B) :
  comprehension f l = Ok bs -> length bs = length l.
Proof.
  revert bs. induction l as [|a l IH]; simpl; intros bs H.
  - now inversion H.
  - destruct (f a) as [b|e]; simpl in H; [|discriminate].
    destruct (comprehension f l) as [bs'|e]; simpl in H; [|discriminate].
    inversion H; subst. simpl. now rewrite (IH bs').
Qed.

Lemma comprehension_nth {A B : Type} (f : A -> result B) (l : list A)
  (bs : list B) (i : nat) (a : A) :
  comprehension f l = Ok bs -> nth_error l i = Some a ->
  exists b, nth_error bs i = Some b /\ f a = Ok b.
Proof.
  revert bs i. induction l as [|a' l IH]; simpl; intros bs i H Hi.
  - destruct i; discriminate.
  - destruct (f a') as [b'|e] eqn:Hfa; simpl in H; [|discriminate].
    destruct (comprehension f l) as [bs'|e]; simpl in H; [|discriminate].
    inversion H; subst. destruct i as [|i]; simpl in *.
    + inversion Hi; subst. now exists b'.
    + now apply IH.
Qed.

Lemma unique_not_in (k : string) (l : list string) :
  existsb (String.eqb k) l = false -> ~ In k l.
Proof.
  intros H Hin.
  assert (existsb (String.eqb k) l = true) as Ht.
  { apply existsb_exists. exists k. split; [assumption|apply String.eqb_refl]. }
  congruence.
Qed.

Lemma unique_NoDup (l : list string) : unique l = true <-> NoDup l.
Proof.
  induction l as [|k l IH]; simpl.
  - split; [constructor|reflexivity].
  - rewrite andb_true_iff, negb_true_iff, IH. split.
    + intros [Hk Hl]. constructor; [now apply unique_not_in|assumption].
    + intros H. inversion H as [|? ? Hk Hl]; subst. split; [|assumption].
      destruct (existsb (String.eqb k) l) eqn:E; [|reflexivity].
      apply existsb_exists in E as (k' & Hin & Heq).
      apply String.eqb_eq in Heq. now subst.
Qed.

Lemma get_in_wf {V : Type} (d : dict V) (k : string) (v : V) :
  wf d -> In (k, v) d -> get d k = Some v.
Proof.
  unfold wf. induction d as [|[k' v'] d IH]; simpl; intros Hwf Hin.
  - contradiction.
  - apply andb_true_iff in Hwf as [Hk Hd]. apply negb_true_iff in Hk.
    destruct Hin as [Heq|Hin].
    + inversion Heq; subst. now rewrite String.eqb_refl.
    + destruct (String.eqb_spec k' k) as [->|Hne].
      * exfalso. apply (unique_not_in _ _ Hk).
        apply in_map_iff. now exists (k, v).
      * now apply IH.
Qed.

(** Under the dictionary invariant, looking every key up again is the same
    as walking through the items. *)
Lemma comprehension_keys {V B : Type} (d : dict V) (g : V -> result B) :
  wf d ->
  comprehension (fun k => v <- subscript d k ;; g v) (keys d)
  = comprehension (fun kv => g (snd kv)) d.
Proof.
  intros Hwf. unfold keys. rewrite comprehension_map.
  apply comprehension_ext_in. intros [k v] Hin. simpl.
  unfold subscript. now rewrite (get_in_wf d k v Hwf Hin).
Qed.

(** ** The sign vector *)

Lemma converter_valid (d : string) :
  valid_direction d -> subscript converter d = Ok (sign_of d).
Proof. intros [->| ->]; reflexivity. Qed.

Lemma converter_invalid (d : string) :
  ~ valid_direction d -> subscript converter d = Raise KeyError.
Proof.
  intros Hd. unfold subscript, converter, valid_direction in *. cbn [get].
  destruct (String.eqb_spec "MIN" d) as [<-|_]; [tauto|].
  destruct (String.eqb_spec "MAX" d) as [<-|_]; [tauto|reflexivity].
Qed.

Lemma valid_direction_dec (d : string) :
  {valid_direction d} + {~ valid_direction d}.
Proof.
  unfold valid_direction.
  destruct (string_dec d "MIN"); [now left; left|].
  destruct (string_dec d "MAX"); [now left; right|].
  right. tauto.
Qed.

Lemma sign_entries_valid (objectives : dict string) :
  wf objectives ->
  Forall (fun kd => valid_direction (snd kd)) objectives ->
  sign_entries objectives = Ok (map (fun kd => sign_of (snd kd)) objectives).
Proof.
  intros Hwf Hall. unfold sign_entries.
  rewrite comprehension_keys by assumption.
  rewrite <- comprehension_pure. apply comprehension_ext_in.
  intros kd Hin. apply converter_valid.
  now apply (proj1 (Forall_forall _ _) Hall).
Qed.

Lemma sign_entries_invalid (objectives : dict string) :
  wf objectives ->
  Exists (fun kd => ~ valid_direction (snd kd)) objectives ->
  sign_entries objectives = Raise KeyError.
Proof.
  intros Hwf Hex. unfold sign_entries.
  rewrite comprehension_keys by assumption. clear Hwf.
  induction objectives as [|[k d] l IH]; simpl.
  - inversion Hex.
  - destruct (valid_direction_dec d) as [Hd|Hd].
    + rewrite (converter_valid d Hd). simpl.
      inversion Hex as [? ? Hbad|? ? Hbad]; subst; [now simpl in Hbad|].
      now rewrite (IH Hbad).
    + now rewrite (converter_invalid d Hd).
Qed.

Lemma prepare_sign_vector_valid (objectives : dict string) :
  wf objectives ->
  Forall (fun kd => valid_direction (snd kd)) objectives ->
  prepare_sign_vector objectives
  = Ok (map (fun kd => sign_of (snd kd)) objectives).
Proof.
  intros Hwf Hall. unfold prepare_sign_vector.
  now rewrite sign_entries_valid.
Qed.

(** C4.  For an objective spec whose directions are all ["MIN"] or ["MAX"],
    [prepare_sign_vector] returns a vector with one entry per objective, in
    the order of the spec, whose entry is [-1.0] for an objective marked
    ["MIN"] and [1.0] for one marked ["MAX"]. *)
Theorem prepare_sign_vector_entries (objectives : dict string) :
  wf objectives ->
  Forall (fun kd => valid_direction (snd kd)) objectives ->
  exists sign_vector,
    prepare_sign_vector objectives = Ok sign_vector
    /\ length sign_vector = length objectives
    /\ forall i k d,
        nth_error objectives i = Some (k, d) ->
        (d = "MIN"%string -> nth_error sign_vector i = Some (-1))
        /\ (d = "MAX"%string -> nth_error sign_vector i = Some 1).
Proof.
  intros Hwf Hall. eexists. split; [now apply prepare_sign_vector_valid|].
  split; [apply length_map|].
  intros i k d Hi. rewrite nth_error_map, Hi. simpl.
  split; intros ->; reflexivity.
Qed.

Lemma prepare_sign_vector_entries_witness :
  exists sign_vector,
    prepare_sign_vector [("acc", "MAX"); ("latency", "MIN")]%string
    = Ok sign_vector
    /\ length sign_vector = 2%nat
    /\ forall i k d,
        nth_error [("acc", "MAX"); ("latency", "MIN")]%string i = Some (k, d) ->
        (d = "MIN"%string -> nth_error sign_vector i = Some (-1))
        /\ (d = "MAX"%string -> nth_error sign_vector i = Some 1).
Proof.
  apply (prepare_sign_vector_entries
           [("acc", "MAX"); ("latency", "MIN")]%string).
  - reflexivity.
  - apply Forall_cons; [now right|].
    apply Forall_cons; [now left|apply Forall_nil].
Defined.

(** C5.  An objective spec with a direction other than the exact strings
    ["MIN"] and ["MAX"] makes [prepare_sign_vector] raise [ValueError] (the
    specification's InvalidObjectiveDirection) instead of returning a
    vector; a spec with only the two literals does not raise. *)
Theorem prepare_sign_vector_raises (objectives : dict string) :
  wf objectives ->
  (Exists (fun kd => ~ valid_direction (snd kd)) objectives ->
   prepare_sign_vector objectives = Raise ValueError)
  /\ (Forall (fun kd => valid_direction (snd kd)) objectives ->
      exists sign_vector, prepare_sign_vector objectives = Ok sign_vector).
Proof.
  intros Hwf. split.
  - intros Hex. unfold prepare_sign_vector.
    now rewrite sign_entries_invalid.
  - intros Hall. eexists. now apply prepare_sign_vector_valid.
Qed.

Lemma prepare_sign_vector_raises_witness :
  prepare_sign_vector [("acc", "MAX"); ("latency", "min")]%string
  = Raise ValueError.
Proof.
  apply (proj1 (prepare_sign_vector_raises
                  [("acc", "MAX"); ("latency", "min")]%string eq_refl)).
  apply Exists_cons_tl, Exists_cons_hd.
  unfold valid_direction. simpl. intros [H|H]; discriminate.
Defined.

(** ** Comparisons of rows *)

Lemma Qlt_bool_iff (x y : Q) : Qlt_bool x y = true <-> x < y.
Proof. unfold Qlt_bool, Qlt. apply Z.ltb_lt. Qed.

Lemma Qlt_bool_not_le (x y : Q) : Qlt_bool x y = negb (Qle_bool y x).
Proof. unfold Qlt_bool, Qle_bool. apply Z.ltb_antisym. Qed.

Lemma Qlt_bool_irrefl (x : Q) : Qlt_bool x x = false.
Proof. unfold Qlt_bool. apply Z.ltb_irrefl. Qed.

Lemma Qlt_bool_trans (x y z : Q) :
  Qlt_bool x y = true -> Qlt_bool y z = true -> Qlt_bool x z = true.
Proof.
  rewrite !Qlt_bool_iff. apply Qlt_trans.
Qed.

Lemma xltb_irrefl (x : xnum) : xltb x x = false.
Proof. destruct x; simpl; try reflexivity. apply Qlt_bool_irrefl. Qed.

Lemma xltb_trans (x y z : xnum) :
  xltb x y = true -> xltb y z = true -> xltb x z = true.
Proof.
  destruct x, y, z; simpl; try discriminate; try reflexivity.
  apply Qlt_bool_trans.
Qed.

(** On values other than NaN the order is total. *)
Lemma xltb_not_le (x y : xnum) :
  number x = true -> number y = true -> xltb x y = negb (xleb y x).
Proof.
  destruct x, y; simpl; try discriminate; try reflexivity.
  intros _ _. apply Qlt_bool_not_le.
Qed.

Lemma xltb_le_false (x y : xnum) : xltb x y = true -> xleb y x = false.
Proof.
  destruct x, y; simpl; try discriminate; try reflexivity.
  rewrite Qlt_bool_not_le. now intros H%negb_true_iff.
Qed.

Lemma xltb_le_trans (x y z : xnum) :
  xltb x y = true -> xleb y z = true -> xleb x z = true.
Proof.
  destruct x, y, z; simpl; try discriminate; try reflexivity.
  rewrite Qlt_bool_iff, !Qle_bool_iff. intros H1 H2. lra.
Qed.

Lemma xltb_leb (x y : xnum) : xltb x y = true -> xleb x y = true.
Proof.
  destruct x, y; simpl; try discriminate; try reflexivity.
  rewrite Qlt_bool_iff, Qle_bool_iff. apply Qlt_le_weak.
Qed.

(** Without NaN, a row survives the test against [c] unless [c] is
    strictly smaller in every objective. *)
Lemma any_le_all_lt (p c : list xnum) :
  forallb number p = true -> forallb number c = true ->
  any_le p c = negb (all_lt c p).
Proof.
  unfold any_le, all_lt. revert c.
  induction p as [|x p IH]; intros [|y c]; simpl; try reflexivity.
  intros Hp Hc.
  apply andb_true_iff in Hp as [Hx Hp].
  apply andb_true_iff in Hc as [Hy Hc].
  rewrite (IH c Hp Hc), negb_andb, (xltb_not_le y x Hy Hx), negb_involutive.
  reflexivity.
Qed.

(** NaN or not, a row that [c] beats in every objective fails the test
    against [c]. *)
Lemma all_lt_not_any_le (p c : list xnum) :
  all_lt c p = true -> any_le p c = false.
Proof.
  unfold any_le, all_lt. revert c.
  induction p as [|x p IH]; intros [|y c]; simpl; try reflexivity.
  intros H. apply andb_true_iff in H as [Hyx H].
  now rewrite (xltb_le_false y x Hyx), (IH c H).
Qed.

(** A row that beats [p] in every objective passes every test that [p]
    passes. *)
Lemma all_lt_any_le (q p c : list xnum) :
  length q = length p ->
  all_lt q p = true -> any_le p c = true -> any_le q c = true.
Proof.
  unfold any_le, all_lt. revert p c.
  induction q as [|x q IH]; intros [|y p] [|z c]; simpl;
    try discriminate; try reflexivity.
  intros Hlen Hlt Hle. injection Hlen as Hlen.
  apply andb_true_iff in Hlt as [Hxy Hlt].
  apply orb_true_iff in Hle as [Hyz|Hle]; apply orb_true_iff.
  - left. exact (xltb_le_trans x y z Hxy Hyz).
  - right. exact (IH p c Hlen Hlt Hle).
Qed.

Lemma all_lt_trans (a b c : list xnum) :
  length a = length b -> length b = length c ->
  all_lt a b = true -> all_lt b c = true -> all_lt a c = true.
Proof.
  unfold all_lt. revert b c.
  induction a as [|x a IH]; intros [|y b] [|z c]; simpl;
    try discriminate; try reflexivity.
  intros Hab Hbc H1 H2.
  apply andb_true_iff in H1 as [Hxy H1].
  apply andb_true_iff in H2 as [Hyz H2].
  apply andb_true_iff. split.
  - exact (xltb_trans x y z Hxy Hyz).
  - apply (IH b c); congruence.
Qed.

Lemma all_lt_irrefl (p : list xnum) : p <> [] -> all_lt p p = false.
Proof.
  destruct p as [|x p]; [congruence|]. intros _.
  unfold all_lt. simpl. now rewrite xltb_irrefl.
Qed.

Lemma no_nan_nth (a_vals : list (list xnum)) (j : nat) (p : list xnum) :
  no_nan a_vals = true -> nth_error a_vals j = Some p ->
  forallb number p = true.
Proof.
  intros Hnum Hj. apply nth_error_In in Hj.
  exact (proj1 (forallb_forall _ _) Hnum p Hj).
Qed.

(** ** The masking loop *)

Lemma length_assign_masked (m new : list bool) :
  length (assign_masked m new) = length m.
Proof.
  revert new. induction m as [|[|] m IH]; intros new; simpl.
  - reflexivity.
  - destruct new; simpl; now rewrite IH.
  - now rewrite IH.
Qed.

Lemma any_le_rows_select_length (m : list bool) (a_vals : list (list xnum))
  (c : list xnum) :
  length m = length a_vals ->
  length (any_le_rows (select m a_vals) c) = count_occ bool_dec m true.
Proof.
  unfold any_le_rows. rewrite length_map. revert a_vals.
  induction m as [|b m IH]; intros [|p ps]; simpl; try discriminate.
  - reflexivity.
  - intros H. injection H as H. destruct b; simpl; now rewrite IH.
Qed.

(** One pass of line 43, entry by entry. *)
Lemma nth_assign_masked (m : list bool) (a_vals : list (list xnum))
  (c : list xnum) (j : nat) (p : list xnum) :
  length m = length a_vals ->
  nth_error a_vals j = Some p ->
  nth j (assign_masked m (any_le_rows (select m a_vals) c)) false
  = nth j m false && any_le p c.
Proof.
  revert a_vals j.
  induction m as [|b m IH]; intros [|r rows] j; simpl; try discriminate.
  - destruct j; discriminate.
  - intros Hlen Hj. injection Hlen as Hlen.
    destruct b; simpl; destruct j as [|j]; simpl in *.
    + now inversion Hj.
    + now apply IH.
    + reflexivity.
    + now apply IH.
Qed.

Lemma nth_np_ones (n j : nat) : (j < n)%nat -> nth j (np_ones n) false = true.
Proof.
  unfold np_ones. revert j. induction n as [|n IH]; intros j Hj; [lia|].
  destruct j as [|j]; simpl; [reflexivity|]. apply IH. lia.
Qed.

Lemma list_eq_map_nth {A : Type} (f : A -> bool) (l : list A)
  (m : list bool) :
  length m = length l ->
  (forall j a, nth_error l j = Some a -> nth j m false = f a) ->
  m = map f l.
Proof.
  revert m. induction l as [|a l IH]; intros [|b m]; simpl; try discriminate.
  - reflexivity.
  - intros Hlen H. injection Hlen as Hlen. f_equal.
    + exact (H 0%nat a eq_refl).
    + apply IH; [assumption|]. intros j a' Hj. exact (H (S j) a' Hj).
Qed.

Lemma mask_loop_length (a_vals : list (list xnum))
  (todo : list (nat * list xnum))
  (m : list bool) :
  length (mask_loop a_vals todo m) = length m.
Proof.
  revert m. induction todo as [|[i c] todo IH]; intros m; simpl;
    [reflexivity|].
  destruct (nth i m false); rewrite IH;
    [apply length_assign_masked|reflexivity].
Qed.

(** Rows with the same entries have the same entry of the mask, pass
    after pass. *)
Lemma mask_loop_tied (a_vals : list (list xnum))
  (todo : list (nat * list xnum)) (i j : nat) (p : list xnum) :
  nth_error a_vals i = Some p -> nth_error a_vals j = Some p ->
  forall m,
    length m = length a_vals ->
    nth i m false = nth j m false ->
    nth i (mask_loop a_vals todo m) false
    = nth j (mask_loop a_vals todo m) false.
Proof.
  intros Hi Hj. induction todo as [|[h c] todo IH]; intros m Hlen Heq;
    simpl; [assumption|].
  destruct (nth h m false); apply IH; try assumption.
  - now rewrite length_assign_masked.
  - rewrite (nth_assign_masked m a_vals c i p Hlen Hi).
    rewrite (nth_assign_masked m a_vals c j p Hlen Hj).
    now rewrite Heq.
Qed.

Section MaskLoop.

Variable k : nat.
Variable a_vals : list (list xnum).
Hypothesis Hmatrix : matrix k a_vals.
Hypothesis Hnum : no_nan a_vals = true.

Lemma row_length (j : nat) (p : list xnum) :
  nth_error a_vals j = Some p -> length p = k.
Proof.
  intros Hj. apply nth_error_In in Hj.
  exact (proj1 (Forall_forall _ _) Hmatrix p Hj).
Qed.

Lemma mask_inv_init : mask_inv a_vals [] (np_ones (length a_vals)).
Proof.
  split; [apply repeat_length|].
  intros j p Hj. split.
  - intros _ i c [].
  - rewrite nth_np_ones; [discriminate|].
    apply nth_error_Some. congruence.
Qed.

Lemma mask_inv_step (visited : list nat) (m : list bool) (i : nat)
  (c : list xnum) :
  nth_error a_vals i = Some c ->
  mask_inv a_vals visited m ->
  mask_inv a_vals (i :: visited)
    (if nth i m false
     then assign_masked m (any_le_rows (select m a_vals) c)
     else m).
Proof.
  intros Hi [Hlen Hinv].
  destruct (nth i m false) eqn:Hmi.
  - split; [now rewrite length_assign_masked|].
    intros j p Hj. rewrite (nth_assign_masked m a_vals c j p Hlen Hj).
    destruct (Hinv j p Hj) as [Hkeep Hdrop]. split.
    + intros H. apply andb_true_iff in H as [Hm Hle].
      intros i' c' [<-|Hin] Hi'.
      * rewrite Hi in Hi'. inversion Hi'; subst.
        rewrite any_le_all_lt in Hle
          by (eapply no_nan_nth; [exact Hnum|eassumption]).
        now apply negb_true_iff in Hle.
      * now apply (Hkeep Hm i' c').
    + intros H. apply andb_false_iff in H as [Hm|Hle].
      * destruct (Hdrop Hm) as (i' & c' & Hin & Hi' & Hlt).
        exists i', c'. split; [now right|now split].
      * exists i, c. split; [now left|]. split; [assumption|].
        rewrite any_le_all_lt in Hle
          by (eapply no_nan_nth; [exact Hnum|eassumption]).
        now apply negb_false_iff in Hle.
  - split; [assumption|].
    intros j p Hj. destruct (Hinv j p Hj) as [Hkeep Hdrop]. split.
    + intros Hm i' c' [<-|Hin] Hi'.
      * rewrite Hi in Hi'. inversion Hi'; subst c'.
        destruct (proj2 (Hinv i c Hi) Hmi) as (h & q & Hh & Hq & Hlt).
        destruct (all_lt c p) eqn:Hcp; [|reflexivity].
        assert (all_lt q p = true) as Hqp.
        { apply (all_lt_trans q c p); try assumption.
          - rewrite (row_length h q Hq). symmetry. exact (row_length i c Hi).
          - rewrite (row_length i c Hi). symmetry. exact (row_length j p Hj). }
        rewrite (Hkeep Hm h q Hh Hq) in Hqp. discriminate.
      * now apply (Hkeep Hm i' c').
    + intros Hm. destruct (Hdrop Hm) as (i' & c' & Hin & Hi' & Hlt).
      exists i', c'. split; [now right|now split].
Qed.

Lemma mask_inv_loop (todo : list (nat * list xnum)) :
  Forall (fun ic => nth_error a_vals (fst ic) = Some (snd ic)) todo ->
  forall visited m,
    mask_inv a_vals visited m ->
    mask_inv a_vals (rev (map fst todo) ++ visited)
      (mask_loop a_vals todo m).
Proof.
  induction todo as [|[i c] todo IH]; simpl; intros Htodo visited m Hinv.
  - assumption.
  - inversion Htodo as [|? ? Hi Htodo']; subst. simpl in Hi.
    rewrite <- app_assoc. simpl.
    pose proof (mask_inv_step visited m i c Hi Hinv) as Hstep.
    destruct (nth i m false); now apply IH.
Qed.

(** Whatever the order in which the rows are visited, as long as every
    row is visited, the loop marks exactly the rows that no row beats in
    every objective. *)
Lemma mask_loop_any_order (todo : list (nat * list xnum)) :
  Forall (fun ic => nth_error a_vals (fst ic) = Some (snd ic)) todo ->
  (forall i, (i < length a_vals)%nat -> In i (map fst todo)) ->
  mask_loop a_vals todo (np_ones (length a_vals))
  = map (fun p => negb (existsb (fun q => all_lt q p) a_vals)) a_vals.
Proof.
  intros Htodo Hall.
  destruct (mask_inv_loop todo Htodo [] _ mask_inv_init) as [Hlen Hinv].
  apply list_eq_map_nth; [assumption|].
  intros j p Hj. destruct (Hinv j p Hj) as [Hkeep Hdrop].
  destruct (nth j (mask_loop a_vals todo (np_ones (length a_vals))) false)
    eqn:Hm; symmetry.
  - apply negb_true_iff.
    destruct (existsb (fun q => all_lt q p) a_vals) eqn:E; [|reflexivity].
    apply existsb_exists in E as (q & Hq & Hlt).
    apply In_nth_error in Hq as [i Hi].
    rewrite (Hkeep eq_refl i q) in Hlt; [discriminate| |assumption].
    rewrite app_nil_r. apply -> in_rev. apply Hall.
    apply nth_error_Some. congruence.
  - apply negb_false_iff.
    destruct (Hdrop eq_refl) as (i & c & _ & Hi & Hlt).
    apply existsb_exists. exists c. split; [|assumption].
    now apply nth_error_In in Hi.
Qed.

End MaskLoop.

(** ** Enumerations *)

Lemma In_combine_seq {A : Type} (l : list A) (s i : nat) (a : A) :
  In (i, a) (combine (seq s (length l)) l)
  <-> (s <= i)%nat /\ nth_error l (i - s) = Some a.
Proof.
  revert s. induction l as [|x l IH]; intros s; simpl.
  - split; [contradiction|]. intros [_ H]. destruct (i - s)%nat; discriminate.
  - rewrite IH. split.
    + intros [H|[Hle H]].
      * inversion H; subst. split; [lia|]. now rewrite Nat.sub_diag.
      * split; [lia|]. replace (i - s)%nat with (S (i - S s)) by lia.
        exact H.
    + intros [Hle H]. destruct (Nat.eq_dec s i) as [->|Hne].
      * left. rewrite Nat.sub_diag in H. simpl in H. congruence.
      * right. split; [lia|].
        replace (i - s)%nat with (S (i - S s)) in H by lia. exact H.
Qed.

Lemma In_enumerate {A : Type} (l : list A) (i : nat) (a : A) :
  In (i, a) (enumerate l) <-> nth_error l i = Some a.
Proof.
  unfold enumerate. rewrite In_combine_seq, Nat.sub_0_r.
  split; [now intros [_ H]|]. intros H. split; [lia|assumption].
Qed.

Lemma map_snd_combine_seq {A B : Type} (f : A -> B) (l : list A) (s : nat) :
  map (fun ia => f (snd ia)) (combine (seq s (length l)) l) = map f l.
Proof.
  revert s. induction l as [|x l IH]; intros s; simpl; [reflexivity|].
  now rewrite IH.
Qed.

Lemma map_enumerate_ext {A B : Type} (g : nat * A -> B) (f : A -> B)
  (l : list A) :
  (forall i a, nth_error l i = Some a -> g (i, a) = f a) ->
  map g (enumerate l) = map f l.
Proof.
  intros H. unfold enumerate. rewrite <- (map_snd_combine_seq f l 0).
  apply map_ext_in. intros [i a] Hin. simpl.
  apply H. now apply In_enumerate.
Qed.

Lemma In_true_indices (m : list bool) (i : nat) :
  In i (true_indices m) <-> nth_error m i = Some true.
Proof.
  unfold true_indices. rewrite in_map_iff. split.
  - intros ([j b] & Hj & Hin). simpl in Hj. subst j.
    apply filter_In in Hin as [Hin Hb]. simpl in Hb. subst b.
    now apply In_enumerate.
  - intros H. exists (i, true). split; [reflexivity|].
    apply filter_In. split; [now apply In_enumerate|reflexivity].
Qed.

(** ** The loop against the filter of strong dominance *)

Lemma beaten_by_other_all_lt (a_vals : list (list xnum)) (i : nat)
  (p : list xnum) :
  p <> [] -> nth_error a_vals i = Some p ->
  beaten_by_other all_lt a_vals i p = existsb (fun q => all_lt q p) a_vals.
Proof.
  intros Hp Hi. unfold beaten_by_other.
  apply eq_true_iff_eq. rewrite !existsb_exists. split.
  - intros ([j q] & Hin & H). simpl in H.
    apply andb_true_iff in H as [_ Hlt].
    exists q. split; [|assumption].
    apply In_enumerate in Hin. now apply nth_error_In in Hin.
  - intros (q & Hin & Hlt). apply In_nth_error in Hin as [j Hj].
    exists (j, q). split; [now apply In_enumerate|]. simpl.
    apply andb_true_iff. split; [|assumption].
    apply negb_true_iff, Nat.eqb_neq. intros ->.
    rewrite Hi in Hj. inversion Hj; subst q.
    rewrite (all_lt_irrefl p Hp) in Hlt. discriminate.
Qed.

Lemma strong_dominance_filter_all (k : nat) (a_vals : list (list xnum)) :
  matrix k a_vals -> (0 < k)%nat ->
  strong_dominance_filter a_vals
  = map (fun p => negb (existsb (fun q => all_lt q p) a_vals)) a_vals.
Proof.
  intros Hm Hk. unfold strong_dominance_filter, filter_by.
  apply map_enumerate_ext. intros i p Hi. simpl.
  rewrite beaten_by_other_all_lt; [reflexivity| |assumption].
  pose proof (row_length k a_vals Hm i p Hi) as Hlen.
  destruct p; simpl in Hlen; [lia|discriminate].
Qed.

(** C9, as amended.  On a matrix with at least one column and no NaN
    entry, the masking loop of lines 40-43 computes the filter of strong
    dominance: a point is kept exactly when no other point is strictly
    smaller in every transformed objective.  The result is the same for
    every order in which the loop may visit the rows. *)
Theorem mask_loop_strong_dominance (k : nat) (a_vals : list (list xnum)) :
  matrix k a_vals -> (0 < k)%nat -> no_nan a_vals = true ->
  efficient_mask (length a_vals) (Arr2 a_vals)
  = Ok (strong_dominance_filter a_vals)
  /\ forall todo,
      Permutation todo (enumerate a_vals) ->
      mask_loop a_vals todo (np_ones (length a_vals))
      = strong_dominance_filter a_vals.
Proof.
  intros Hm Hk Hnum.
  assert (forall todo, Permutation todo (enumerate a_vals) ->
            mask_loop a_vals todo (np_ones (length a_vals))
            = strong_dominance_filter a_vals) as Hany.
  { intros todo Hperm.
    rewrite (strong_dominance_filter_all k a_vals Hm Hk).
    apply (mask_loop_any_order k a_vals Hm Hnum).
    - apply Forall_forall. intros [i c] Hin. simpl.
      apply In_enumerate. exact (Permutation_in _ Hperm Hin).
    - intros i Hi. apply nth_error_Some in Hi.
      destruct (nth_error a_vals i) as [c|] eqn:Hc; [|congruence].
      apply in_map_iff. exists (i, c). split; [reflexivity|].
      apply (Permutation_in _ (Permutation_sym Hperm)).
      now apply In_enumerate. }
  split; [|exact Hany].
  simpl. f_equal. apply Hany. apply Permutation_refl.
Qed.

Lemma mask_loop_strong_dominance_witness :
  efficient_mask 3 (Arr2 [[Fin 2; Fin 2]; [Fin 1; Fin 3]; [Fin 3; Fin 4]])
  = Ok (strong_dominance_filter
          [[Fin 2; Fin 2]; [Fin 1; Fin 3]; [Fin 3; Fin 4]])
  /\ forall todo,
      Permutation todo
        (enumerate [[Fin 2; Fin 2]; [Fin 1; Fin 3]; [Fin 3; Fin 4]]) ->
      mask_loop [[Fin 2; Fin 2]; [Fin 1; Fin 3]; [Fin 3; Fin 4]] todo
        (np_ones 3)
      = strong_dominance_filter
          [[Fin 2; Fin 2]; [Fin 1; Fin 3]; [Fin 3; Fin 4]].
Proof.
  apply (mask_loop_strong_dominance 2
           [[Fin 2; Fin 2]; [Fin 1; Fin 3]; [Fin 3; Fin 4]]).
  - repeat constructor.
  - lia.
  - reflexivity.
Defined.

(** C9 as stated fails in two ways.  Without an objective the loop unmarks
    the only point of a history although there is no other point, because
    [np.any] over no column is false.  And a NaN entry makes every
    comparison false: after the row [[NaN]] the loop has unmarked every
    row, and with the same two rows in the other order it keeps the row
    [[1.0]], although no row is strictly smaller than another. *)
Lemma mask_loop_no_objective :
  (efficient_mask 1 (Arr2 [[]]) = Ok [false]
   /\ strong_dominance_filter [[]] = [true]
   /\ retrieve_pareto_front [("t"%string, [[]])] [] = Ok [])
  /\ (efficient_mask 2 (Arr2 [[NaN]; [Fin 1]]) = Ok [false; false]
      /\ strong_dominance_filter [[NaN]; [Fin 1]] = [true; true]
      /\ efficient_mask 2 (Arr2 [[Fin 1]; [NaN]]) = Ok [true; false]).
Proof. repeat split. Qed.

(** ** From the history to the surviving indices *)

Lemma comprehension_Forall2 {A B : Type} (f : A -> result B) (l : list A)
  (bs : list B) :
  comprehension f l = Ok bs -> Forall2 (fun a b => f a = Ok b) l bs.
Proof.
  revert bs. induction l as [|a l IH]; simpl; intros bs H.
  - inversion H. constructor.
  - destruct (f a) as [b|e] eqn:Hfa; simpl in H; [|discriminate].
    destruct (comprehension f l) as [bs'|e]; simpl in H; [|discriminate].
    inversion H; subst. constructor; [assumption|now apply IH].
Qed.

Lemma Forall2_nth_error_r {A B : Type} (R : A -> B -> Prop) (l : list A)
  (bs : list B) (i : nat) (b : B) :
  Forall2 R l bs -> nth_error bs i = Some b ->
  exists a, nth_error l i = Some a /\ R a b.
Proof.
  intros H. revert i. induction H as [|a b' l bs HR _ IH]; intros i Hi.
  - destruct i; discriminate.
  - destruct i as [|i]; simpl in *.
    + inversion Hi; subst. now exists a.
    + now apply IH.
Qed.

Lemma objective_values_length (objectives : dict string) (res_dict : dict xnum)
  (row : list xnum) :
  objective_values objectives res_dict = Ok row ->
  length row = length objectives.
Proof.
  intros H. apply comprehension_length in H.
  unfold keys in H. now rewrite length_map in H.
Qed.

Lemma collect_nth (training_history : history) (objectives : dict string)
  (points : list (list xnum * (string * nat))) (e : nat) (row : list xnum)
  (task_id : string) (step : nat) :
  collect training_history objectives = Ok points ->
  nth_error points e = Some (row, (task_id, step)) ->
  exists res_dict,
    nth_error (steps training_history) e
    = Some (task_id, (step - 1)%nat, res_dict)
    /\ (1 <= step)%nat
    /\ objective_values objectives res_dict = Ok row.
Proof.
  intros Hc He. apply comprehension_Forall2 in Hc.
  destruct (Forall2_nth_error_r _ _ _ e _ Hc He) as ([[t s] d] & Hs & Hrow).
  destruct (objective_values objectives d) as [row'|] eqn:Hov;
    simpl in Hrow; [|discriminate].
  inversion Hrow; subst. exists d.
  replace (s + 1 - 1)%nat with s by lia.
  split; [assumption|]. split; [lia|assumption].
Qed.

Lemma collect_matrix (training_history : history) (objectives : dict string)
  (points : list (list xnum * (string * nat))) :
  collect training_history objectives = Ok points ->
  matrix (length objectives) (map fst points).
Proof.
  intros Hc. apply Forall_forall. intros row Hin.
  apply in_map_iff in Hin as ([row' [t s]] & Heq & Hin). simpl in Heq. subst.
  apply In_nth_error in Hin as [e He].
  destruct (collect_nth _ _ _ e _ _ _ Hc He) as (d & _ & _ & Hov).
  exact (objective_values_length _ _ _ Hov).
Qed.

Lemma steps_In (training_history : history) (task_id : string) (step : nat)
  (res_dict : dict xnum) :
  In (task_id, step, res_dict) (steps training_history) ->
  exists task_res,
    In (task_id, task_res) training_history
    /\ nth_error task_res step = Some res_dict.
Proof.
  unfold steps. rewrite in_flat_map.
  intros ([t task_res] & Hin & Hmap). simpl in Hmap.
  apply in_map_iff in Hmap as ([s d] & Heq & Hen). simpl in Heq.
  inversion Heq; subst. exists task_res.
  split; [assumption|now apply In_enumerate].
Qed.

Lemma steps_empty (training_history : history) :
  Forall (fun item => snd item = []) training_history ->
  steps training_history = [].
Proof.
  unfold steps. induction 1 as [|[t r] l Hr _ IH]; simpl; [reflexivity|].
  simpl in Hr. subst r. exact IH.
Qed.

Lemma length_zip_mul (row : list xnum) (w : list Q) :
  length row = length w -> length (zip_mul row w) = length w.
Proof.
  intros H. unfold zip_mul. rewrite length_map, length_combine. lia.
Qed.

Lemma np_mul_rows (vals : list (list xnum)) (w : list Q) :
  matrix (length w) vals ->
  comprehension (fun row => broadcast_mul row w) vals
  = Ok (map (fun row => zip_mul row w) vals).
Proof.
  intros Hm. rewrite <- comprehension_pure. apply comprehension_ext_in.
  intros row Hin. unfold broadcast_mul.
  rewrite (proj1 (Forall_forall _ _) Hm row Hin). now rewrite Nat.eqb_refl.
Qed.

Lemma length_signs (objectives : dict string) :
  length (np_negative (map (fun kd => sign_of (snd kd)) objectives))
  = length objectives.
Proof. unfold np_negative. now rewrite !length_map. Qed.

Lemma signed_matrix (objectives : dict string) (vals : list (list xnum)) :
  matrix (length objectives) vals ->
  matrix (length objectives) (map (signed objectives) vals).
Proof.
  unfold matrix. rewrite Forall_map. apply Forall_impl.
  intros row Hrow. unfold signed.
  rewrite length_zip_mul; rewrite length_signs; [reflexivity|assumption].
Qed.

(** With a point in the history, lines 34-44 run the loop on the rows in
    the minimisation convention. *)
Lemma efficient_indices_loop (objectives : dict string)
  (vals : list (list xnum)) :
  wf objectives ->
  Forall (fun kd => valid_direction (snd kd)) objectives ->
  matrix (length objectives) vals ->
  vals <> [] ->
  efficient_indices vals objectives
  = Ok (Arr2 vals,
        true_indices
          (mask_loop (map (signed objectives) vals)
             (enumerate (map (signed objectives) vals))
             (np_ones (length (map (signed objectives) vals))))).
Proof.
  intros Hwf Hvalid Hm Hne. unfold efficient_indices.
  rewrite (prepare_sign_vector_valid objectives Hwf Hvalid).
  destruct vals as [|v vals]; [congruence|].
  cbn [np_array bind np_mul shape0].
  rewrite np_mul_rows by (now rewrite length_signs).
  cbn [bind efficient_mask].
  change (fun row => zip_mul row
            (np_negative (map (fun kd => sign_of (snd kd)) objectives)))
    with (signed objectives).
  now rewrite length_map.
Qed.

Lemma signed_number (d : string) (x : xnum) :
  number x = true -> number (xmul x (- sign_of d)) = true.
Proof.
  unfold sign_of. destruct (String.eqb d "MIN"); destruct x; intros H;
    try discriminate; reflexivity.
Qed.

Lemma signed_no_nan (objectives : dict string) (vals : list (list xnum)) :
  no_nan vals = true -> no_nan (map (signed objectives) vals) = true.
Proof.
  unfold no_nan. intros H.
  apply forallb_forall. intros srow Hsrow.
  apply in_map_iff in Hsrow as (row & <- & Hrow).
  pose proof (proj1 (forallb_forall _ _) H row Hrow) as Hnum.
  clear H Hrow. unfold signed, zip_mul, np_negative.
  revert row Hnum. induction objectives as [|[o d] objectives IH];
    intros [|x row] Hnum; simpl; try reflexivity.
  simpl in Hnum. apply andb_true_iff in Hnum as [Hx Hrow].
  now rewrite (signed_number d x Hx), (IH row Hrow).
Qed.

(** Without NaN, lines 34-44 keep the indices of the rows that no row
    beats in every objective. *)
Lemma efficient_indices_rows (objectives : dict string)
  (vals : list (list xnum)) :
  wf objectives ->
  Forall (fun kd => valid_direction (snd kd)) objectives ->
  matrix (length objectives) vals ->
  vals <> [] ->
  no_nan vals = true ->
  efficient_indices vals objectives
  = Ok (Arr2 vals,
        true_indices
          (map (fun p =>
                  negb (existsb (fun q => all_lt q p)
                          (map (signed objectives) vals)))
             (map (signed objectives) vals))).
Proof.
  intros Hwf Hvalid Hm Hne Hnum.
  rewrite (efficient_indices_loop objectives vals Hwf Hvalid Hm Hne).
  rewrite (mask_loop_any_order (length objectives)).
  - reflexivity.
  - now apply signed_matrix.
  - now apply signed_no_nan.
  - apply Forall_forall. intros [i c] Hin. now apply In_enumerate.
  - intros i Hi. apply nth_error_Some in Hi.
    destruct (nth_error (map (signed objectives) vals) i) as [c|] eqn:Hc;
      [|congruence].
    apply in_map_iff. exists (i, c). split; [reflexivity|].
    now apply In_enumerate.
Qed.

(** Without a point, the product of line 39 broadcasts the shape [(0,)]
    against one entry per objective. *)
Lemma efficient_indices_empty (objectives : dict string) :
  wf objectives ->
  Forall (fun kd => valid_direction (snd kd)) objectives ->
  efficient_indices [] objectives
  = if (length objectives <=? 1)%nat then Ok (Arr1 [], [])
    else Raise ValueError.
Proof.
  intros Hwf Hvalid. unfold efficient_indices.
  rewrite (prepare_sign_vector_valid objectives Hwf Hvalid).
  cbn [np_array bind np_mul]. unfold broadcast_mul.
  rewrite length_signs.
  destruct objectives as [|o1 [|o2 l]]; reflexivity.
Qed.

Lemma surviving_iff (training_history : history) (objectives : dict string)
  (points : list (list xnum * (string * nat))) :
  wf objectives ->
  Forall (fun kd => valid_direction (snd kd)) objectives ->
  collect training_history objectives = Ok points ->
  points <> [] ->
  no_nan (map fst points) = true ->
  exists indices,
    surviving training_history objectives = Ok indices
    /\ forall i,
        In i indices
        <-> exists v, nth_error (map fst points) i = Some v
                      /\ forall u, In u (map fst points) ->
                           all_lt (signed objectives u) (signed objectives v)
                           = false.
Proof.
  intros Hwf Hvalid Hc Hne Hnum. unfold surviving. rewrite Hc. cbn [bind].
  rewrite efficient_indices_rows; try assumption.
  - cbn [bind snd]. eexists. split; [reflexivity|].
    intros i. rewrite In_true_indices, nth_error_map, nth_error_map.
    destruct (nth_error (map fst points) i) as [v|]; simpl.
    + split.
      * intros H. exists v. split; [reflexivity|]. intros u Hu.
        inversion H as [Hex]. apply negb_true_iff in Hex.
        destruct (all_lt (signed objectives u) (signed objectives v)) eqn:E;
          [|reflexivity].
        rewrite <- Hex. symmetry. apply existsb_exists.
        exists (signed objectives u). split; [now apply in_map|assumption].
      * intros (v' & Hv & Hall). inversion Hv; subst v'. f_equal.
        apply negb_true_iff.
        destruct (existsb _ _) eqn:E; [|reflexivity].
        apply existsb_exists in E as (q & Hq & Hlt).
        apply in_map_iff in Hq as (u & <- & Hu).
        rewrite (Hall u Hu) in Hlt. discriminate.
    + split; [discriminate|]. intros (v & Hv & _). discriminate.
  - now apply (collect_matrix training_history).
  - destruct points; [congruence|discriminate].
Qed.

Lemma comprehension_ok {A B : Type} (f : A -> result B) (l : list A) :
  (forall a, In a l -> exists b, f a = Ok b) ->
  exists bs, comprehension f l = Ok bs.
Proof.
  induction l as [|a l IH]; simpl; intros Hok; [now eexists|].
  destruct (Hok a) as [b Hb]; [now left|]. rewrite Hb. cbn [bind].
  destruct IH as [bs Hbs]; [intros a' Ha'; apply Hok; now right|].
  rewrite Hbs. now eexists.
Qed.

Lemma set_objectives_ok (rows : list (list xnum)) (e : nat) (row : list xnum)
  (ks : list string) :
  nth_error rows e = Some row ->
  forall s r0,
    length row = (s + length ks)%nat ->
    exists r,
      set_objectives (Arr2 rows) e (combine (seq s (length ks)) ks) r0 = Ok r.
Proof.
  intros He. induction ks as [|o ks IH]; intros s r0 Hlen.
  - now eexists.
  - simpl in Hlen. cbn [length seq combine set_objectives item2].
    unfold item at 1. rewrite He. cbn [bind]. unfold item.
    destruct (nth_error row s) as [x|] eqn:Hx.
    + cbn [bind]. apply IH. lia.
    + apply nth_error_None in Hx. lia.
Qed.

(** With a point in the history and recognised directions, the surviving
    indices are those that the loop marks on the transformed rows. *)
Lemma surviving_loop (training_history : history)
  (objectives : dict string) (points : list (list xnum * (string * nat))) :
  wf objectives ->
  Forall (fun kd => valid_direction (snd kd)) objectives ->
  collect training_history objectives = Ok points ->
  points <> [] ->
  surviving training_history objectives
  = Ok (true_indices
          (mask_loop (map (signed objectives) (map fst points))
             (enumerate (map (signed objectives) (map fst points)))
             (np_ones
                (length (map (signed objectives) (map fst points)))))).
Proof.
  intros Hwf Hvalid Hc Hne. unfold surviving. rewrite Hc. cbn [bind].
  rewrite efficient_indices_loop; try assumption; [reflexivity| |].
  - now apply (collect_matrix training_history).
  - destruct points; [congruence|discriminate].
Qed.

(** With a point in the history and recognised directions the call
    returns, and the front holds one record per surviving index. *)
Lemma front_of_surviving (training_history : history)
  (objectives : dict string) (points : list (list xnum * (string * nat))) :
  wf objectives ->
  Forall (fun kd => valid_direction (snd kd)) objectives ->
  collect training_history objectives = Ok points ->
  points <> [] ->
  exists indices front,
    surviving training_history objectives = Ok indices
    /\ retrieve_pareto_front training_history objectives = Ok front
    /\ length front = length indices.
Proof.
  intros Hwf Hvalid Hc Hne.
  pose proof (collect_matrix _ _ _ Hc) as Hm.
  unfold surviving, retrieve_pareto_front. rewrite Hc. cbn [bind].
  rewrite efficient_indices_loop; try assumption;
    [|destruct points; [congruence|discriminate]].
  cbn [bind fst snd].
  match goal with
  | |- context [true_indices ?m] => set (mask := m)
  end.
  assert (length mask = length points) as Hmask.
  { unfold mask. rewrite mask_loop_length. unfold np_ones.
    now rewrite repeat_length, !length_map. }
  destruct (comprehension_ok
              (emit objectives (Arr2 (map fst points)) (map snd points))
              (true_indices mask)) as [front Hfront].
  - intros e He. apply In_true_indices in He.
    assert (e < length points)%nat as Hlt.
    { rewrite <- Hmask. apply nth_error_Some. congruence. }
    destruct (nth_error points e) as [[row ref]|] eqn:Hpt;
      [|apply nth_error_None in Hpt; lia].
    unfold emit, item. rewrite nth_error_map, Hpt. cbn [option_map bind].
    unfold enumerate. apply (set_objectives_ok (map fst points) e row).
    + now rewrite nth_error_map, Hpt.
    + unfold keys. rewrite length_map. simpl.
      apply (row_length (length objectives) (map fst points) Hm e).
      now rewrite nth_error_map, Hpt.
  - exists (true_indices mask), front.
    split; [reflexivity|]. split; [assumption|].
    now apply comprehension_length in Hfront.
Qed.

Lemma signed_nonempty (objectives : dict string) (v : list xnum) :
  objectives <> [] -> length v = length objectives -> signed objectives v <> [].
Proof.
  intros Hne Hlen Hnil. apply (f_equal (@length xnum)) in Hnil.
  unfold signed in Hnil.
  rewrite length_zip_mul in Hnil by (now rewrite length_signs).
  rewrite length_signs in Hnil. destruct objectives; [congruence|discriminate].
Qed.

Lemma all_lt_dominates (q p : list xnum) :
  length q = length p -> q <> [] ->
  all_lt q p = true -> dominates q p = true.
Proof.
  unfold all_lt, dominates. intros Hlen Hne Hlt.
  apply andb_true_iff. split.
  - apply forallb_forall. intros xy Hxy.
    pose proof (proj1 (forallb_forall _ _) Hlt xy Hxy) as H.
    now apply xltb_leb.
  - destruct q as [|x q]; [congruence|]. destruct p as [|y p]; [discriminate|].
    simpl in *. apply andb_true_iff in Hlt as [Hxy _]. now rewrite Hxy.
Qed.

(** *** Rows that another row beats in every objective *)

Lemma beaten_inv_init (a_vals : list (list xnum)) :
  beaten_inv a_vals [] (np_ones (length a_vals)).
Proof.
  split; [apply repeat_length|].
  intros j p h q Hj Hh Hlt. split; [|intros []].
  intros _. apply nth_np_ones. apply nth_error_Some. congruence.
Qed.

Lemma beaten_inv_step (k : nat) (a_vals : list (list xnum))
  (visited : list nat) (m : list bool) (i : nat) (c : list xnum) :
  matrix k a_vals ->
  nth_error a_vals i = Some c ->
  beaten_inv a_vals visited m ->
  beaten_inv a_vals (i :: visited)
    (if nth i m false
     then assign_masked m (any_le_rows (select m a_vals) c)
     else m).
Proof.
  intros Hm Hi [Hlen Hinv].
  destruct (nth i m false) eqn:Hmi.
  - split; [now rewrite length_assign_masked|].
    intros j p h q Hj Hh Hlt.
    rewrite (nth_assign_masked m a_vals c j p Hlen Hj).
    rewrite (nth_assign_masked m a_vals c h q Hlen Hh).
    destruct (Hinv j p h q Hj Hh Hlt) as [Hup Hdone]. split.
    + intros H. apply andb_true_iff in H as [Hmj Hle].
      apply andb_true_iff. split; [now apply Hup|].
      apply (all_lt_any_le q p c); try assumption.
      rewrite (row_length k a_vals Hm h q Hh).
      symmetry. exact (row_length k a_vals Hm j p Hj).
    + intros [<-|Hin].
      * rewrite Hi in Hh. inversion Hh; subst q.
        rewrite (all_lt_not_any_le p c Hlt). apply andb_false_r.
      * now rewrite (Hdone Hin).
  - split; [assumption|].
    intros j p h q Hj Hh Hlt.
    destruct (Hinv j p h q Hj Hh Hlt) as [Hup Hdone]. split; [assumption|].
    intros [<-|Hin]; [|now apply Hdone].
    destruct (nth j m false) eqn:Hmj; [|reflexivity].
    rewrite (Hup eq_refl) in Hmi. discriminate.
Qed.

Lemma beaten_inv_loop (k : nat) (a_vals : list (list xnum))
  (todo : list (nat * list xnum)) :
  matrix k a_vals ->
  Forall (fun ic => nth_error a_vals (fst ic) = Some (snd ic)) todo ->
  forall visited m,
    beaten_inv a_vals visited m ->
    beaten_inv a_vals (rev (map fst todo) ++ visited)
      (mask_loop a_vals todo m).
Proof.
  intros Hm. induction todo as [|[i c] todo IH]; simpl;
    intros Htodo visited m Hinv; [assumption|].
  inversion Htodo as [|? ? Hi Htodo']; subst. simpl in Hi.
  rewrite <- app_assoc. simpl.
  pose proof (beaten_inv_step k a_vals visited m i c Hm Hi Hinv) as Hstep.
  destruct (nth i m false); now apply IH.
Qed.

(** NaN or not, a row that some row beats in every objective is unmarked
    at the end of the loop. *)
Lemma beaten_row_unmarked (k : nat) (a_vals : list (list xnum))
  (j h : nat) (p q : list xnum) :
  matrix k a_vals ->
  nth_error a_vals j = Some p -> nth_error a_vals h = Some q ->
  all_lt q p = true ->
  nth j (mask_loop a_vals (enumerate a_vals) (np_ones (length a_vals))) false
  = false.
Proof.
  intros Hm Hj Hh Hlt.
  destruct (beaten_inv_loop k a_vals (enumerate a_vals) Hm) with
    (visited := @nil nat) (m := np_ones (length a_vals)) as [_ Hinv].
  - apply Forall_forall. intros [i c] Hin. now apply In_enumerate.
  - apply beaten_inv_init.
  - apply (proj2 (Hinv j p h q Hj Hh Hlt)).
    rewrite app_nil_r. apply -> in_rev.
    apply in_map_iff. exists (h, q). split; [reflexivity|].
    now apply In_enumerate.
Qed.

(** C3, as amended.  Two points with identical objective vectors are never
    eliminated by one another: they are both retained or both excluded.
    Both are excluded when some point of the history is strictly better in
    every objective.  With at least one objective and no NaN value, both
    are retained when no other point dominates them, in particular when
    the history holds the two tied points alone, or one point alone.  The
    call returns, and its front holds one record per retained index, in
    the order of [indices]. *)
Theorem tied_points_share_fate (training_history : history)
  (objectives : dict string) (points : list (list xnum * (string * nat)))
  (i j : nat) (v : list xnum) (ri rj : string * nat) :
  wf objectives ->
  Forall (fun kd => valid_direction (snd kd)) objectives ->
  collect training_history objectives = Ok points ->
  nth_error points i = Some (v, ri) ->
  nth_error points j = Some (v, rj) ->
  exists indices front,
    surviving training_history objectives = Ok indices
    /\ retrieve_pareto_front training_history objectives = Ok front
    /\ length front = length indices
    /\ (In i indices <-> In j indices)
    /\ ((exists u, In u (map fst points)
                   /\ all_lt (signed objectives u) (signed objectives v)
                      = true) ->
        ~ In i indices /\ ~ In j indices)
    /\ (objectives <> [] ->
        no_nan (map fst points) = true ->
        (forall h u rh,
            h <> i -> h <> j -> nth_error points h = Some (u, rh) ->
            dominates (signed objectives u) (signed objectives v) = false) ->
        In i indices /\ In j indices).
Proof.
  intros Hwf Hvalid Hc Hi Hj.
  assert (points <> []) as Hne by (intros ->; destruct i; discriminate).
  pose proof (collect_matrix _ _ _ Hc) as Hm.
  pose proof (signed_matrix objectives _ Hm) as Hsm.
  destruct (front_of_surviving _ _ _ Hwf Hvalid Hc Hne)
    as (indices & front & Hs & Hfront & Hlen).
  pose proof (surviving_loop _ _ _ Hwf Hvalid Hc Hne) as Hloop.
  rewrite Hs in Hloop. inversion Hloop as [Hind]. clear Hloop.
  set (rows := map (signed objectives) (map fst points)) in *.
  set (mask := mask_loop rows (enumerate rows) (np_ones (length rows))) in *.
  assert (forall h r, nth_error points h = Some (v, r) ->
            nth_error rows h = Some (signed objectives v)) as Hrow.
  { intros h r Hh. unfold rows. now rewrite !nth_error_map, Hh. }
  assert (forall h, (h < length rows)%nat ->
            (In h indices <-> nth h mask false = true)) as Hmask.
  { intros h Hh. rewrite Hind, In_true_indices.
    assert (length mask = length rows) as Hlm.
    { unfold mask. rewrite mask_loop_length. apply repeat_length. }
    rewrite (nth_error_nth' mask false) by lia.
    split; [now inversion 1|now intros ->]. }
  assert (i < length rows)%nat as Hil
    by (apply nth_error_Some; rewrite (Hrow i ri Hi); discriminate).
  assert (j < length rows)%nat as Hjl
    by (apply nth_error_Some; rewrite (Hrow j rj Hj); discriminate).
  assert (nth i mask false = nth j mask false) as Htied.
  { unfold mask.
    apply (mask_loop_tied rows (enumerate rows) i j (signed objectives v)).
    - exact (Hrow i ri Hi).
    - exact (Hrow j rj Hj).
    - apply repeat_length.
    - now rewrite !nth_np_ones. }
  exists indices, front.
  split; [assumption|]. split; [assumption|]. split; [assumption|].
  split; [|split].
  - rewrite (Hmask i Hil), (Hmask j Hjl), Htied. reflexivity.
  - intros (u & Hu & Hlt).
    apply (in_map (signed objectives)) in Hu. fold rows in Hu.
    apply In_nth_error in Hu as [h Hh].
    assert (nth i mask false = false) as Hfalse.
    { unfold mask.
      exact (beaten_row_unmarked (length objectives) rows i h _ _ Hsm
               (Hrow i ri Hi) Hh Hlt). }
    rewrite (Hmask i Hil), (Hmask j Hjl), <- Htied, Hfalse.
    split; discriminate.
  - intros Hobj Hnum Hfree.
    destruct (surviving_iff _ _ _ Hwf Hvalid Hc Hne Hnum)
      as (indices' & Hs' & Hin).
    assert (indices' = indices) as -> by congruence.
    assert (length v = length objectives) as Hlv.
    { apply (row_length _ _ Hm i). now rewrite nth_error_map, Hi. }
    assert (forall u, In u (map fst points) ->
              all_lt (signed objectives u) (signed objectives v) = false)
      as Hnone.
    { intros u Hu.
      destruct (all_lt (signed objectives u) (signed objectives v)) eqn:Hlt;
        [|reflexivity].
      assert (length u = length objectives) as Hlu
        by exact (proj1 (Forall_forall _ _) Hm u Hu).
      apply In_nth_error in Hu as [h Hh].
      rewrite nth_error_map in Hh.
      destruct (nth_error points h) as [[u' rh]|] eqn:Hph; [|discriminate].
      simpl in Hh. inversion Hh; subst u'.
      assert (u = v \/ (h <> i /\ h <> j)) as [->|[Hhi Hhj]].
      { destruct (Nat.eq_dec h i) as [->|Hhi]; [left; congruence|].
        destruct (Nat.eq_dec h j) as [->|Hhj]; [left; congruence|].
        now right. }
      - rewrite all_lt_irrefl in Hlt; [discriminate|].
        now apply signed_nonempty.
      - rewrite <- (Hfree h u rh Hhi Hhj Hph). symmetry.
        apply all_lt_dominates; [| |assumption].
        + unfold signed.
          rewrite !length_zip_mul; rewrite ?length_signs; congruence.
        + now apply signed_nonempty. }
    split; apply Hin; exists v.
    + split; [now rewrite nth_error_map, Hi|assumption].
    + split; [now rewrite nth_error_map, Hj|assumption].
Qed.

Lemma tied_points_share_fate_witness :
  exists indices front,
    surviving [("t", [[("a", Fin 2)]; [("a", Fin 2)]])]%string
      [("a", "MIN")]%string
    = Ok indices
    /\ retrieve_pareto_front
         [("t", [[("a", Fin 2)]; [("a", Fin 2)]])]%string
         [("a", "MIN")]%string
       = Ok front
    /\ length front = length indices
    /\ (In 0%nat indices <-> In 1%nat indices)
    /\ ((exists u,
           In u (map fst [([Fin 2], ("t"%string, 1%nat));
                          ([Fin 2], ("t"%string, 2%nat))])
           /\ all_lt (signed [("a", "MIN")]%string u)
                (signed [("a", "MIN")]%string [Fin 2])
              = true) ->
        ~ In 0%nat indices /\ ~ In 1%nat indices)
    /\ ([("a", "MIN")]%string <> [] ->
        no_nan (map fst [([Fin 2], ("t"%string, 1%nat));
                         ([Fin 2], ("t"%string, 2%nat))])
        = true ->
        (forall h u rh,
            h <> 0%nat -> h <> 1%nat ->
            nth_error [([Fin 2], ("t"%string, 1%nat));
                       ([Fin 2], ("t"%string, 2%nat))] h
            = Some (u, rh) ->
            dominates (signed [("a", "MIN")]%string u)
              (signed [("a", "MIN")]%string [Fin 2])
            = false) ->
        In 0%nat indices /\ In 1%nat indices).
Proof.
  apply (tied_points_share_fate
           [("t", [[("a", Fin 2)]; [("a", Fin 2)]])]%string
           [("a", "MIN")]%string
           [([Fin 2], ("t"%string, 1%nat)); ([Fin 2], ("t"%string, 2%nat))]
           0 1 [Fin 2] ("t"%string, 1%nat) ("t"%string, 2%nat)).
  - reflexivity.
  - apply Forall_cons; [now left|apply Forall_nil].
  - reflexivity.
  - reflexivity.
  - reflexivity.
Defined.

(** C3 as stated fails.  Two tied points are both excluded when a further
    point is strictly better in every objective (the front of the first
    history holds the third point only), and when a record before them
    holds NaN (every comparison with NaN is false, and the front of the
    second history is empty).  A single point is excluded when the spec
    has no objective, and when its value is NaN. *)
Lemma tied_points_excluded :
  (surviving [("t", [[("a", Fin 2)]; [("a", Fin 2)]; [("a", Fin 1)]])]%string
     [("a", "MIN")]%string
   = Ok [2%nat]
   /\ retrieve_pareto_front
        [("t", [[("a", Fin 2)]; [("a", Fin 2)]; [("a", Fin 1)]])]%string
        [("a", "MIN")]%string
      = Ok [[("task_id-ressource", VRef "t" 3); ("a", VNum (Fin 1))]]%string
   /\ retrieve_pareto_front [("t"%string, [[]])] [] = Ok [])
  /\ (retrieve_pareto_front
        [("t", [[("a", NaN)]; [("a", Fin 1)]; [("a", Fin 1)]])]%string
        [("a", "MIN")]%string
      = Ok []
      /\ retrieve_pareto_front [("t", [[("a", NaN)]])]%string
           [("a", "MIN")]%string
         = Ok []).
Proof. repeat split. Qed.

(** C1 fails on the code.  With two objectives to minimise, the point
    [(1, 1)] dominates the point [(1, 2)]: it is no worse in both and
    strictly better in the second.  The standard Pareto filter excludes the
    dominated point; [retrieve_pareto_front] returns both. *)
Theorem weakly_dominated_point_retained :
  retrieve_pareto_front
    [("t", [[("a", Fin 1); ("b", Fin 1)]; [("a", Fin 1); ("b", Fin 2)]])]%string
    [("a", "MIN"); ("b", "MIN")]%string
  = Ok [[("task_id-ressource", VRef "t" 1); ("a", VNum (Fin 1));
         ("b", VNum (Fin 1))];
        [("task_id-ressource", VRef "t" 2); ("a", VNum (Fin 1));
         ("b", VNum (Fin 2))]
       ]%string
  /\ dominates (signed [("a", "MIN"); ("b", "MIN")]%string [Fin 1; Fin 1])
       (signed [("a", "MIN"); ("b", "MIN")]%string [Fin 1; Fin 2])
     = true
  /\ pareto_dominance_filter
       (map (signed [("a", "MIN"); ("b", "MIN")]%string)
          [[Fin 1; Fin 1]; [Fin 1; Fin 2]])
     = [true; false].
Proof. repeat split. Qed.

(** C2 on the code.  On a history without a step the front is empty when
    the spec has at most one objective; with two or more objectives the
    product of line 39 cannot broadcast the shape [(0,)] of the empty array
    against the sign vector, and the call raises [ValueError]. *)
Theorem empty_history_front (training_history : history)
  (objectives : dict string) :
  wf objectives ->
  Forall (fun kd => valid_direction (snd kd)) objectives ->
  Forall (fun item => snd item = []) training_history ->
  retrieve_pareto_front training_history objectives
  = if (length objectives <=? 1)%nat then Ok [] else Raise ValueError.
Proof.
  intros Hwf Hvalid Hempty. unfold retrieve_pareto_front, collect.
  rewrite (steps_empty training_history Hempty). cbn [comprehension bind map].
  rewrite (efficient_indices_empty objectives Hwf Hvalid).
  destruct (length objectives <=? 1)%nat; reflexivity.
Qed.

Lemma empty_history_front_witness :
  retrieve_pareto_front [] [("acc", "MAX"); ("latency", "MIN")]%string
  = Raise ValueError.
Proof.
  apply (empty_history_front [] [("acc", "MAX"); ("latency", "MIN")]%string).
  - reflexivity.
  - apply Forall_cons; [now right|].
    apply Forall_cons; [now left|apply Forall_nil].
  - apply Forall_nil.
Defined.

(** ** The records of the front *)

Lemma set_fresh {V : Type} (d : dict V) (k : string) (v : V) :
  ~ In k (keys d) -> Dict.set d k v = d ++ [(k, v)].
Proof.
  induction d as [|[k' v'] d IH]; simpl; intros Hk; [reflexivity|].
  destruct (String.eqb_spec k' k) as [->|Hne]; [tauto|].
  rewrite IH; [reflexivity|tauto].
Qed.

Lemma skipn_nth_error {A : Type} (l : list A) (s : nat) (x : A) :
  nth_error l s = Some x -> skipn s l = x :: skipn (S s) l.
Proof.
  revert s. induction l as [|a l IH]; intros [|s] H; simpl in *;
    try discriminate.
  - now inversion H.
  - now apply IH.
Qed.

Lemma set_objectives_rows (rows : list (list xnum)) (e : nat) (row : list xnum)
  (ks : list string) :
  nth_error rows e = Some row ->
  NoDup ks ->
  forall s r0,
    length row = (s + length ks)%nat ->
    (forall o, In o ks -> ~ In o (keys r0)) ->
    set_objectives (Arr2 rows) e (combine (seq s (length ks)) ks) r0
    = Ok (r0 ++ combine ks (map VNum (skipn s row))).
Proof.
  intros He. induction 1 as [|o ks Ho Hks IH]; intros s r0 Hlen Hfresh.
  - simpl. now rewrite app_nil_r.
  - simpl in Hlen. cbn [length seq combine set_objectives item2].
    unfold item at 1. rewrite He. cbn [bind]. unfold item.
    destruct (nth_error row s) as [x|] eqn:Hx.
    + cbn [bind]. rewrite set_fresh by (apply Hfresh; now left).
      rewrite IH.
      * rewrite (skipn_nth_error row s x Hx). simpl.
        now rewrite <- app_assoc.
      * lia.
      * intros o' Ho'. unfold keys. rewrite map_app, in_app_iff. simpl.
        intros [Hin|[Heq|[]]].
        -- apply (Hfresh o'); [now right|assumption].
        -- now subst.
    + apply nth_error_None in Hx. lia.
Qed.

Lemma efficient_indices_array (vals : list (list xnum))
  (objectives : dict string) (arr : ndarray) (indices : list nat) :
  efficient_indices vals objectives = Ok (arr, indices) ->
  arr = np_array vals.
Proof.
  unfold efficient_indices.
  destruct (prepare_sign_vector objectives) as [w|]; [|discriminate].
  cbn [bind]. destruct (np_mul _ _) as [a|]; [|discriminate].
  cbn [bind]. destruct (efficient_mask _ _) as [m|]; [|discriminate].
  cbn [bind]. now inversion 1.
Qed.

(** C8, as amended.  When no objective is itself named
    ["task_id-ressource"], the front holds one record per surviving point,
    in order: the key ["task_id-ressource"] mapped to the task identifier
    and the 1-based step of the point, followed by one entry per objective
    in the order of the spec whose value is the one the history records for
    that objective at that step. *)
Theorem front_records (training_history : history)
  (objectives : dict string) (front : list (dict value)) :
  wf objectives ->
  ~ In "task_id-ressource"%string (keys objectives) ->
  retrieve_pareto_front training_history objectives = Ok front ->
  exists indices,
    surviving training_history objectives = Ok indices
    /\ Forall2
         (fun e r =>
            exists task_id task_res step res_dict row,
              nth_error (steps training_history) e
              = Some (task_id, (step - 1)%nat, res_dict)
              /\ In (task_id, task_res) training_history
              /\ (1 <= step)%nat
              /\ nth_error task_res (step - 1) = Some res_dict
              /\ Forall2 (fun o x => get res_dict o = Some x)
                   (keys objectives) row
              /\ r = ("task_id-ressource"%string, VRef task_id step)
                     :: combine (keys objectives) (map VNum row))
         indices front.
Proof.
  intros Hwf Hkey. unfold retrieve_pareto_front, surviving.
  destruct (collect training_history objectives) as [points|] eqn:Hc;
    [|discriminate].
  cbn [bind].
  destruct (efficient_indices (map fst points) objectives) as [[arr indices]|]
    eqn:He; [|discriminate].
  cbn [bind fst snd]. intros Hfront.
  exists indices. split; [reflexivity|].
  apply comprehension_Forall2 in Hfront.
  revert Hfront. apply Forall2_impl.
  intros e r Hemit. unfold emit in Hemit.
  unfold item in Hemit at 1.
  destruct (nth_error (map snd points) e) as [[task_id step]|] eqn:Href;
    [|discriminate].
  cbn [bind fst snd] in Hemit.
  rewrite nth_error_map in Href.
  destruct (nth_error points e) as [[row ref]|] eqn:Hpt; [|discriminate].
  simpl in Href. inversion Href; subst ref.
  destruct (collect_nth _ _ _ _ _ _ _ Hc Hpt) as (res_dict & Hstep & H1 & Hov).
  assert (In (task_id, (step - 1)%nat, res_dict) (steps training_history))
    as Hin by (now apply nth_error_In in Hstep).
  destruct (steps_In _ _ _ _ Hin) as (task_res & Htask & Hres).
  exists task_id, task_res, step, res_dict, row.
  repeat (split; [assumption|]). split.
  - apply comprehension_Forall2 in Hov.
    revert Hov. apply Forall2_impl.
    intros o x. unfold subscript.
    destruct (get res_dict o); [now inversion 1|discriminate].
  - rewrite (efficient_indices_array _ _ _ _ He) in Hemit.
    assert (np_array (map fst points) = Arr2 (map fst points)) as Harr.
    { destruct points; [destruct e; discriminate|reflexivity]. }
    rewrite Harr in Hemit. unfold enumerate in Hemit.
    rewrite (set_objectives_rows (map fst points) e row) in Hemit.
    + now inversion Hemit.
    + now rewrite nth_error_map, Hpt.
    + now apply unique_NoDup.
    + apply objective_values_length in Hov. unfold keys.
      now rewrite length_map.
    + intros o Ho [<-|[]]. contradiction.
Qed.

Lemma front_records_witness :
  exists indices,
    surviving
      [("t1", [[("acc", Fin 0.9); ("latency", Fin 10)];
               [("acc", Fin 0.8); ("latency", Fin 5)]]);
       ("t2", [[("acc", Fin 0.95); ("latency", Fin 20)]])]%string
      [("acc", "MAX"); ("latency", "MIN")]%string
    = Ok indices
    /\ Forall2
         (fun e r =>
            exists task_id task_res step res_dict row,
              nth_error
                (steps
                   [("t1", [[("acc", Fin 0.9); ("latency", Fin 10)];
                            [("acc", Fin 0.8); ("latency", Fin 5)]]);
                    ("t2", [[("acc", Fin 0.95); ("latency", Fin 20)]])
                   ]%string) e
              = Some (task_id, (step - 1)%nat, res_dict)
              /\ In (task_id, task_res)
                   [("t1", [[("acc", Fin 0.9); ("latency", Fin 10)];
                            [("acc", Fin 0.8); ("latency", Fin 5)]]);
                    ("t2", [[("acc", Fin 0.95); ("latency", Fin 20)]])]%string
              /\ (1 <= step)%nat
              /\ nth_error task_res (step - 1) = Some res_dict
              /\ Forall2 (fun o x => get res_dict o = Some x)
                   (keys [("acc", "MAX"); ("latency", "MIN")]%string) row
              /\ r = ("task_id-ressource"%string, VRef task_id step)
                     :: combine
                          (keys [("acc", "MAX"); ("latency", "MIN")]%string)
                          (map VNum row))
         indices
         [[("task_id-ressource", VRef "t1" 1); ("acc", VNum (Fin 0.9));
           ("latency", VNum (Fin 10))];
          [("task_id-ressource", VRef "t1" 2); ("acc", VNum (Fin 0.8));
           ("latency", VNum (Fin 5))];
          [("task_id-ressource", VRef "t2" 1); ("acc", VNum (Fin 0.95));
           ("latency", VNum (Fin 20))]]%string.
Proof.
  apply (front_records
           [("t1", [[("acc", Fin 0.9); ("latency", Fin 10)];
                    [("acc", Fin 0.8); ("latency", Fin 5)]]);
            ("t2", [[("acc", Fin 0.95); ("latency", Fin 20)]])]%string
           [("acc", "MAX"); ("latency", "MIN")]%string).
  - reflexivity.
  - simpl. intros [H|[H|[]]]; discriminate.
  - reflexivity.
Defined.

(** C8 as stated fails when an objective is named ["task_id-ressource"]:
    line 50 overwrites the reference with the value of the objective, and
    the record of the surviving point holds no reference. *)
Lemma front_record_without_reference :
  retrieve_pareto_front
    [("t", [[("task_id-ressource", Fin 2)]])]%string
    [("task_id-ressource", "MIN")]%string
  = Ok [[("task_id-ressource"%string, VNum (Fin 2))]].
Proof. reflexivity. Qed.

(** ** Sorting and gaps *)

Lemma Qle_bool_false (x y : Q) : Qle_bool x y = false -> y <= x.
Proof.
  intros H. apply Qlt_le_weak, Qnot_le_lt. intros Hle.
  apply Qle_bool_iff in Hle. congruence.
Qed.

Lemma insert_length (x : Q) (l : list Q) :
  length (insert x l) = S (length l).
Proof.
  induction l as [|y l IH]; simpl; [reflexivity|].
  destruct (Qle_bool x y); simpl; [reflexivity|now rewrite IH].
Qed.

Lemma np_sort_length (l : list Q) : length (np_sort l) = length l.
Proof.
  induction l as [|x l IH]; simpl; [reflexivity|].
  now rewrite insert_length, IH.
Qed.

Lemma insert_In (x y : Q) (l : list Q) :
  In y (insert x l) <-> y = x \/ In y l.
Proof.
  induction l as [|z l IH]; simpl.
  - intuition.
  - destruct (Qle_bool x z); simpl; [intuition|].
    rewrite IH. intuition.
Qed.

Lemma np_sort_In (y : Q) (l : list Q) : In y (np_sort l) <-> In y l.
Proof.
  induction l as [|x l IH]; simpl; [reflexivity|].
  rewrite insert_In, IH. intuition.
Qed.

Lemma ascending_cons (x : Q) (l : list Q) :
  ascending l -> (forall y, In y l -> x <= y) -> ascending (x :: l).
Proof.
  destruct l as [|y l]; simpl; [trivial|].
  intros Hl Hx. split; [apply Hx; now left|assumption].
Qed.

Lemma ascending_tail (x : Q) (l : list Q) :
  ascending (x :: l) -> ascending l.
Proof. destruct l; simpl; [trivial|now intros [_ H]]. Qed.

Lemma ascending_head (x : Q) (l : list Q) :
  ascending (x :: l) -> forall y, In y l -> x <= y.
Proof.
  revert x. induction l as [|z l IH]; intros x Hasc y Hy; [contradiction|].
  destruct Hasc as [Hxz Hl]. destruct Hy as [->|Hy]; [assumption|].
  apply Qle_trans with z; [assumption|now apply IH].
Qed.

Lemma insert_ascending (x : Q) (l : list Q) :
  ascending l -> ascending (insert x l).
Proof.
  induction l as [|y l IH]; simpl; intros Hl; [trivial|].
  destruct (Qle_bool x y) eqn:Hxy.
  - split; [now apply Qle_bool_iff|assumption].
  - apply ascending_cons.
    + apply IH. now apply (ascending_tail y).
    + intros z Hz. apply insert_In in Hz as [->|Hz].
      * now apply Qle_bool_false.
      * now apply (ascending_head y l).
Qed.

Lemma np_sort_ascending (l : list Q) : ascending (np_sort l).
Proof.
  induction l as [|x l IH]; simpl; [trivial|now apply insert_ascending].
Qed.

(** The last entry of an ascending list bounds every entry. *)
Lemma ascending_last (l : list Q) (y : Q) :
  ascending l -> In y l -> y <= last l 0.
Proof.
  revert y. induction l as [|x l IH]; intros y Hasc Hy; [contradiction|].
  destruct l as [|z l].
  - destruct Hy as [->|[]]. simpl. apply Qle_refl.
  - change (last (x :: z :: l) 0) with (last (z :: l) 0).
    destruct Hy as [->|Hy].
    + apply Qle_trans with z; [apply Hasc|].
      apply IH; [now apply (ascending_tail y)|now left].
    + apply IH; [now apply (ascending_tail x)|assumption].
Qed.

Lemma last_In (l : list Q) : l <> [] -> In (last l 0) l.
Proof.
  induction l as [|x l IH]; [congruence|]. intros _.
  destruct l as [|z l]; [now left|].
  right. apply IH. discriminate.
Qed.

Lemma np_diff_length (a : Q) (l : list Q) :
  length (np_diff (a :: l)) = length l.
Proof.
  revert a. induction l as [|b l IH]; intros a; simpl; [reflexivity|].
  f_equal. apply IH.
Qed.

Lemma np_diff_nonneg (l : list Q) :
  ascending l -> Forall (fun g => 0 <= g) (np_diff l).
Proof.
  induction l as [|a l IH]; intros Hasc; simpl; [constructor|].
  destruct l as [|b l]; [constructor|].
  destruct Hasc as [Hab Hl]. constructor; [|now apply IH].
  lra.
Qed.

(** The gaps telescope. *)
Lemma np_diff_sum (a : Q) (l : list Q) :
  Qsum (np_diff (a :: l)) == last (a :: l) 0 - a.
Proof.
  revert a. induction l as [|b l IH]; intros a.
  - simpl. lra.
  - change (np_diff (a :: b :: l)) with ((b - a) :: np_diff (b :: l)).
    change (last (a :: b :: l) 0) with (last (b :: l) 0).
    change (Qsum ((b - a) :: np_diff (b :: l)))
      with ((b - a) + Qsum (np_diff (b :: l))).
    rewrite IH. lra.
Qed.

Lemma np_diff_zero (l : list Q) :
  Forall (fun x => x == 0) l -> Forall (fun g => g == 0) (np_diff l).
Proof.
  induction l as [|a l IH]; intros Hall; simpl; [constructor|].
  destruct l as [|b l]; [constructor|].
  inversion Hall as [|? ? Ha Hl]; subst.
  constructor; [|now apply IH].
  inversion Hl; subst. lra.
Qed.

Lemma Qmax2_cases (x y : Q) :
  (Qmax2 x y = y /\ x <= y) \/ (Qmax2 x y = x /\ y <= x).
Proof.
  unfold Qmax2. destruct (Qle_bool x y) eqn:H.
  - left. split; [reflexivity|now apply Qle_bool_iff].
  - right. split; [reflexivity|now apply Qle_bool_false].
Qed.

Lemma largest_upper (l : list Q) (y : Q) : In y l -> y <= largest l.
Proof.
  induction l as [|x l IH]; [contradiction|].
  intros Hy. cbn [largest]. destruct l as [|z l].
  - destruct Hy as [->|[]]. apply Qle_refl.
  - destruct (Qmax2_cases x (largest (z :: l))) as [[-> Hle]|[-> Hle]];
      destruct Hy as [->|Hy]; try assumption; try apply Qle_refl.
    + now apply IH.
    + apply Qle_trans with (largest (z :: l)); [now apply IH|assumption].
Qed.

Lemma largest_In (l : list Q) : l <> [] -> In (largest l) l.
Proof.
  induction l as [|x l IH]; [congruence|]. intros _.
  cbn [largest]. destruct l as [|z l]; [now left|].
  destruct (Qmax2_cases x (largest (z :: l))) as [[-> _]|[-> _]].
  - right. apply IH. discriminate.
  - now left.
Qed.

(** [uni[-1]] after [np.sort] is the largest draw. *)
Lemma last_np_sort_largest (l : list Q) :
  l <> [] -> last (np_sort l) 0 == largest l.
Proof.
  intros Hne. apply Qle_antisym.
  - apply largest_upper. apply np_sort_In. apply last_In.
    intros Hnil. apply (f_equal (@length Q)) in Hnil.
    rewrite np_sort_length in Hnil. destruct l; [congruence|discriminate].
  - apply ascending_last; [apply np_sort_ascending|].
    apply np_sort_In. now apply largest_In.
Qed.

(** ** The sampler *)

Lemma random_uniform_length (rng : nat -> Q) (dim : nat) :
  length (random_uniform rng dim) = dim.
Proof. unfold random_uniform. now rewrite length_map, length_seq. Qed.

Lemma random_uniform_In (rng : nat -> Q) (dim : nat) (x : Q) :
  In x (random_uniform rng dim) -> exists i, (i < dim)%nat /\ x = rng i.
Proof.
  unfold random_uniform. rewrite in_map_iff.
  intros (i & <- & Hi). apply in_seq in Hi. exists i. split; [lia|reflexivity].
Qed.

Lemma length_nonempty {A : Type} (l : list A) :
  (1 <= length l)%nat -> l <> [].
Proof. destruct l; simpl; [lia|discriminate]. Qed.

Lemma normalized_gaps_eq (uni : list Q) :
  uni <> [] ->
  normalized_gaps uni
  = Ok (map (fun g => xdiv g (last (np_sort uni) 0))
          (np_diff_prepend0 (np_sort uni))).
Proof.
  intros Hne. unfold normalized_gaps, last_item.
  destruct (np_sort uni) as [|x s] eqn:Hs; [|reflexivity].
  apply (f_equal (@length Q)) in Hs. rewrite np_sort_length in Hs.
  destruct uni; [congruence|discriminate].
Qed.

Lemma map_constant {A B : Type} (f : A -> B) (c : B) (l : list A) :
  Forall (fun a => f a = c) l -> map f l = repeat c (length l).
Proof.
  induction 1 as [|a l Ha _ IH]; simpl; [reflexivity|]. now rewrite Ha, IH.
Qed.

Lemma py_sum_Fin (l : list Q) (acc : Q) :
  fold_left xadd (map Fin l) (Fin acc) = Fin (fold_left Qplus l acc).
Proof.
  revert acc. induction l as [|x l IH]; intros acc; simpl; [reflexivity|].
  apply IH.
Qed.

Lemma fold_left_Qsum (l : list Q) (acc : Q) :
  fold_left Qplus l acc == acc + Qsum l.
Proof.
  revert acc. induction l as [|x l IH]; intros acc; simpl.
  - unfold Qsum. simpl. lra.
  - rewrite IH. unfold Qsum. simpl. lra.
Qed.

Lemma py_sum_NaN (n : nat) (acc : xnum) :
  fold_left xadd (repeat NaN (S n)) acc = NaN.
Proof.
  revert acc. induction n as [|n IH]; intros acc.
  - destruct acc; reflexivity.
  - change (repeat NaN (S (S n))) with (NaN :: repeat NaN (S n)).
    cbn [fold_left]. apply IH.
Qed.

Lemma Qsum_div (l : list Q) (m : Q) :
  Qsum (map (fun g => g / m) l) == Qsum l / m.
Proof.
  induction l as [|g l IH].
  - unfold Qsum, Qdiv. simpl. ring.
  - change (Qsum (map (fun g => g / m) (g :: l)))
      with (g / m + Qsum (map (fun g => g / m) l)).
    change (Qsum (g :: l)) with (g + Qsum l).
    rewrite IH. unfold Qdiv. ring.
Qed.

Lemma xdiv_zero (g m : Q) : g == 0 -> m == 0 -> xdiv g m = NaN.
Proof.
  intros Hg Hm. unfold xdiv.
  now rewrite (Qeq_eq_bool _ _ Hm), (Qeq_eq_bool _ _ Hg).
Qed.

Lemma xdiv_pos (g m : Q) : 0 < m -> xdiv g m = Fin (g / m).
Proof.
  intros Hm. unfold xdiv.
  destruct (Qeq_bool m 0) eqn:E; [|reflexivity].
  apply Qeq_bool_eq in E. lra.
Qed.

Section Sampler.

Variable rng : nat -> Q.
Variable dim : nat.
Hypothesis Hdim : (1 <= dim)%nat.
Hypothesis Hrange : forall i, (i < dim)%nat -> 0 <= rng i /\ rng i < 1.

Lemma uni_nonempty : random_uniform rng dim <> [].
Proof.
  apply length_nonempty. now rewrite random_uniform_length.
Qed.

Lemma sorted_nonneg (x : Q) :
  In x (np_sort (random_uniform rng dim)) -> 0 <= x.
Proof.
  intros Hx. apply np_sort_In, random_uniform_In in Hx as (i & Hi & ->).
  now apply Hrange.
Qed.

Lemma gaps_length :
  length (np_diff_prepend0 (np_sort (random_uniform rng dim))) = dim.
Proof.
  unfold np_diff_prepend0. rewrite np_diff_length, np_sort_length.
  apply random_uniform_length.
Qed.

Lemma gaps_nonneg :
  Forall (fun g => 0 <= g)
    (np_diff_prepend0 (np_sort (random_uniform rng dim))).
Proof.
  apply np_diff_nonneg. apply ascending_cons.
  - apply np_sort_ascending.
  - apply sorted_nonneg.
Qed.

Lemma gaps_sum :
  Qsum (np_diff_prepend0 (np_sort (random_uniform rng dim)))
  == largest (random_uniform rng dim).
Proof.
  unfold np_diff_prepend0. rewrite np_diff_sum.
  rewrite <- (last_np_sort_largest (random_uniform rng dim) uni_nonempty).
  destruct (np_sort (random_uniform rng dim)) as [|x s] eqn:Hs.
  - apply (f_equal (@length Q)) in Hs. rewrite np_sort_length in Hs.
    pose proof uni_nonempty.
    destruct (random_uniform rng dim); [congruence|discriminate].
  - change (last (0 :: x :: s) 0) with (last (x :: s) 0). lra.
Qed.

(** All draws are [0]: every gap is [0.0 / 0.0]. *)
Lemma sampler_zero :
  largest (random_uniform rng dim) == 0 ->
  normalized_gaps (random_uniform rng dim) = Ok (repeat NaN dim)
  /\ uniform_from_unit_simplex rng dim = Raise AssertionError.
Proof.
  intros Hzero.
  assert (normalized_gaps (random_uniform rng dim) = Ok (repeat NaN dim))
    as Hgaps.
  { rewrite (normalized_gaps_eq (random_uniform rng dim) uni_nonempty). f_equal.
    replace (repeat NaN dim)
      with (repeat NaN
              (length (np_diff_prepend0 (np_sort (random_uniform rng dim)))))
      by (now rewrite gaps_length).
    apply map_constant.
    assert (Forall (fun x => x == 0) (np_sort (random_uniform rng dim)))
      as Hall.
    { apply Forall_forall. intros x Hx. apply Qle_antisym.
      - rewrite <- Hzero. apply largest_upper. now apply np_sort_In.
      - now apply sorted_nonneg. }
    assert (Forall (fun g => g == 0)
              (np_diff_prepend0 (np_sort (random_uniform rng dim)))) as Hg.
    { apply np_diff_zero. constructor; [reflexivity|assumption]. }
    revert Hg. apply Forall_impl. intros g Hg. apply xdiv_zero; [assumption|].
    now rewrite (last_np_sort_largest (random_uniform rng dim) uni_nonempty). }
  split; [assumption|].
  unfold uniform_from_unit_simplex. rewrite Hgaps. cbn [bind].
  unfold integrity_check, py_sum.
  destruct dim as [|n]; [lia|]. now rewrite py_sum_NaN.
Qed.

(** Some draw is positive: the division is a division of numbers and the
    sample is a point of the simplex. *)
Lemma sampler_positive :
  0 < largest (random_uniform rng dim) ->
  exists sample,
    uniform_from_unit_simplex rng dim = Ok sample
    /\ length sample = dim
    /\ Forall (fun x => exists q, x = Fin q /\ 0 <= q) sample
    /\ exists s, py_sum sample = Fin s /\ s == 1.
Proof.
  intros Hpos.
  pose proof (last_np_sort_largest (random_uniform rng dim) uni_nonempty) as Hm.
  set (m := last (np_sort (random_uniform rng dim)) 0) in *.
  assert (0 < m) as Hmpos by (now rewrite Hm).
  set (gaps := np_diff_prepend0 (np_sort (random_uniform rng dim))).
  assert (normalized_gaps (random_uniform rng dim)
          = Ok (map Fin (map (fun g => g / m) gaps))) as Hgaps.
  { rewrite (normalized_gaps_eq (random_uniform rng dim) uni_nonempty). f_equal.
    rewrite map_map. apply map_ext. intros g. now apply xdiv_pos. }
  assert (Qsum (map (fun g => g / m) gaps) == 1) as Hsum.
  { rewrite Qsum_div. unfold gaps. rewrite gaps_sum, <- Hm.
    unfold Qdiv. apply Qmult_inv_r. lra. }
  assert (py_sum (map Fin (map (fun g => g / m) gaps))
          = Fin (fold_left Qplus (map (fun g => g / m) gaps) 0)) as Hpy.
  { unfold py_sum. apply py_sum_Fin. }
  assert (fold_left Qplus (map (fun g => g / m) gaps) 0 == 1) as Hone.
  { rewrite fold_left_Qsum, Hsum. lra. }
  exists (map Fin (map (fun g => g / m) gaps)).
  split; [|split; [|split]].
  - unfold uniform_from_unit_simplex. rewrite Hgaps. cbn [bind].
    unfold integrity_check. rewrite Hpy. cbn [xsub xlt].
    assert (Qlt_bool (fold_left Qplus (map (fun g => g / m) gaps) 0 - 1) 1e-6
            = true) as ->; [|reflexivity].
    apply Qlt_bool_iff. rewrite Hone. reflexivity.
  - rewrite !length_map. apply gaps_length.
  - rewrite !Forall_map. generalize gaps_nonneg. apply Forall_impl.
    intros g Hg. exists (g / m). split; [reflexivity|].
    apply Qle_shift_div_l; [assumption|]. lra.
  - exists (fold_left Qplus (map (fun g => g / m) gaps) 0).
    split; assumption.
Qed.

End Sampler.

(** C10.  With draws from the half-open interval from 0 to 1: when the
    largest draw is 0 the normalisation divides 0 by 0, every entry of the
    sample is NaN and the sampler returns no vector (the self-check fails);
    when the largest draw is positive the division is one of numbers and
    the postcondition holds: a vector of [dim] non-negative entries whose
    sum is 1. *)
Theorem sampler_needs_positive_draw (rng : nat -> Q) (dim : nat) :
  (1 <= dim)%nat ->
  (forall i, (i < dim)%nat -> 0 <= rng i /\ rng i < 1) ->
  (largest (random_uniform rng dim) == 0 ->
   normalized_gaps (random_uniform rng dim) = Ok (repeat NaN dim)
   /\ uniform_from_unit_simplex rng dim = Raise AssertionError)
  /\ (0 < largest (random_uniform rng dim) ->
      exists sample,
        uniform_from_unit_simplex rng dim = Ok sample
        /\ length sample = dim
        /\ Forall (fun x => exists q, x = Fin q /\ 0 <= q) sample
        /\ exists s, py_sum sample = Fin s /\ s == 1).
Proof.
  intros Hdim Hrange. split.
  - now apply sampler_zero.
  - now apply sampler_positive.
Qed.

Lemma sampler_needs_positive_draw_witness :
  (largest (random_uniform (fun i => nth i [0.5; 0.25; 0.75] 0) 3) == 0 ->
   normalized_gaps (random_uniform (fun i => nth i [0.5; 0.25; 0.75] 0) 3)
   = Ok (repeat NaN 3)
   /\ uniform_from_unit_simplex (fun i => nth i [0.5; 0.25; 0.75] 0) 3
      = Raise AssertionError)
  /\ (0 < largest (random_uniform (fun i => nth i [0.5; 0.25; 0.75] 0) 3) ->
      exists sample,
        uniform_from_unit_simplex (fun i => nth i [0.5; 0.25; 0.75] 0) 3
        = Ok sample
        /\ length sample = 3%nat
        /\ Forall (fun x => exists q, x = Fin q /\ 0 <= q) sample
        /\ exists s, py_sum sample = Fin s /\ s == 1).
Proof.
  apply (sampler_needs_positive_draw (fun i => nth i [0.5; 0.25; 0.75] 0) 3).
  - lia.
  - intros i Hi. destruct i as [|[|[|i]]]; simpl; try lia; split; lra.
Defined.

(** C7 fails on the code.  For the dimension 1 and the draw [0.0], which
    the generator can return, the sample is [[NaN]] and the sampler raises
    [AssertionError] where the claim has it return [[1.0]]. *)
Theorem sampler_zero_draw :
  normalized_gaps (random_uniform (fun _ => 0) 1) = Ok [NaN]
  /\ uniform_from_unit_simplex (fun _ => 0) 1 = Raise AssertionError.
Proof. split; reflexivity. Qed.



(** * Further properties of the code *)

(** ** Which exceptions a call can raise *)

Lemma comprehension_raises_only {A B : Type} (f : A -> result B)
  (l : list A) (e0 : exn) :
  (forall a e, In a l -> f a = Raise e -> e = e0) ->
  forall e, comprehension f l = Raise e -> e = e0.
Proof.
  induction l as [|a l IH]; simpl; intros Hf e H; [discriminate|].
  destruct (f a) as [b|e'] eqn:Hfa; cbn [bind] in H.
  - destruct (comprehension f l) as [bs|e'] eqn:Hl; cbn [bind] in H;
      [discriminate|].
    inversion H; subst e'. apply IH; [|reflexivity].
    intros a' e' Ha'. apply Hf. now right.
  - inversion H; subst e'. apply (Hf a); [now left|assumption].
Qed.

Lemma comprehension_raise {A B : Type} (f : A -> result B) (l : list A)
  (e0 : exn) :
  (forall a e, In a l -> f a = Raise e -> e = e0) ->
  Exists (fun a => f a = Raise e0) l ->
  comprehension f l = Raise e0.
Proof.
  intros Hf Hex. destruct (comprehension f l) as [bs|e] eqn:Hc.
  - apply comprehension_Forall2 in Hc.
    apply Exists_exists in Hex as (a & Ha & Hfa).
    apply In_nth_error in Ha as [i Hi].
    assert (exists b, nth_error bs i = Some b) as [b Hb].
    { destruct (nth_error bs i) as [b|] eqn:Hb; [now exists b|].
      apply nth_error_None in Hb. apply Forall2_length in Hc.
      assert (i < length l)%nat by (apply nth_error_Some; congruence). lia. }
    destruct (Forall2_nth_error_r _ _ _ i b Hc Hb) as (a' & Ha' & Hok).
    rewrite Hi in Ha'. inversion Ha'; subst a'. congruence.
  - f_equal. exact (comprehension_raises_only f l e0 Hf e Hc).
Qed.

Lemma subscript_raises_only {V : Type} (d : dict V) (k : string) (e : exn) :
  subscript d k = Raise e -> e = KeyError.
Proof.
  unfold subscript. destruct (get d k); [discriminate|now inversion 1].
Qed.

Lemma sign_entries_raises_only (objectives : dict string) (e : exn) :
  sign_entries objectives = Raise e -> e = KeyError.
Proof.
  apply comprehension_raises_only. intros k e' _.
  destruct (subscript objectives k) as [d|e''] eqn:Hk; cbn [bind].
  - apply subscript_raises_only.
  - intros H. inversion H; subst e''. exact (subscript_raises_only _ _ _ Hk).
Qed.

Lemma prepare_sign_vector_raises_only (objectives : dict string) (e : exn) :
  prepare_sign_vector objectives = Raise e -> e = ValueError.
Proof.
  unfold prepare_sign_vector.
  destruct (sign_entries objectives) as [v|e'] eqn:Hs; [discriminate|].
  rewrite (sign_entries_raises_only objectives e' Hs). now inversion 1.
Qed.

(** X1.  Whatever the spec, [prepare_sign_vector] either returns a vector
    with one entry per objective or raises [ValueError]: the [KeyError] of
    the two look-ups never leaves the function. *)
Theorem prepare_sign_vector_total (objectives : dict string) :
  (exists sign_vector,
      prepare_sign_vector objectives = Ok sign_vector
      /\ length sign_vector = length objectives)
  \/ prepare_sign_vector objectives = Raise ValueError.
Proof.
  destruct (prepare_sign_vector objectives) as [v|e] eqn:Hp.
  - left. exists v. split; [reflexivity|].
    unfold prepare_sign_vector in Hp.
    destruct (sign_entries objectives) as [v'|e] eqn:Hs.
    + inversion Hp; subst v'. apply comprehension_length in Hs.
      unfold keys in Hs. now rewrite length_map in Hs.
    + destruct e; discriminate.
  - right. now rewrite (prepare_sign_vector_raises_only objectives e Hp).
Qed.

Lemma objective_values_raises_only (objectives : dict string)
  (res_dict : dict xnum) (e : exn) :
  objective_values objectives res_dict = Raise e -> e = KeyError.
Proof.
  apply comprehension_raises_only. intros k e' _.
  apply subscript_raises_only.
Qed.

Lemma collect_raises_only (training_history : history)
  (objectives : dict string) (e : exn) :
  collect training_history objectives = Raise e -> e = KeyError.
Proof.
  apply comprehension_raises_only. intros [[t s] d] e' _.
  destruct (objective_values objectives d) as [row|e''] eqn:Hov; cbn [bind];
    [discriminate|].
  intros H. inversion H; subst e''.
  exact (objective_values_raises_only _ _ _ Hov).
Qed.

(** X2.  A record of the history that lacks the value of an objective
    makes [retrieve_pareto_front] raise [KeyError]; the flattening comes
    first, so this holds also when the spec has an unrecognised
    direction. *)
Theorem missing_objective_raises (training_history : history)
  (objectives : dict string) :
  Exists
    (fun tsr => Exists (fun k => get (snd tsr) k = None) (keys objectives))
    (steps training_history) ->
  retrieve_pareto_front training_history objectives = Raise KeyError.
Proof.
  intros Hex. unfold retrieve_pareto_front.
  assert (collect training_history objectives = Raise KeyError) as ->;
    [|reflexivity].
  apply comprehension_raise.
  - intros [[t s] d] e _.
    destruct (objective_values objectives d) as [row|e'] eqn:Hov;
      cbn [bind]; [discriminate|].
    intros H. inversion H; subst e'.
    exact (objective_values_raises_only _ _ _ Hov).
  - revert Hex. apply Exists_impl. intros [[t s] d] Hk. simpl in Hk.
    assert (objective_values objectives d = Raise KeyError) as ->;
      [|reflexivity].
    apply comprehension_raise.
    + intros k e _. apply subscript_raises_only.
    + revert Hk. apply Exists_impl. intros k Hk.
      unfold subscript. now rewrite Hk.
Qed.

Lemma missing_objective_raises_witness :
  retrieve_pareto_front
    [("t", [[("a", Fin 1); ("b", Fin 2)]; [("a", Fin 3)]])]%string
    [("a", "MIN"); ("b", "bogus")]%string
  = Raise KeyError.
Proof.
  apply missing_objective_raises.
  apply Exists_cons_tl, Exists_cons_hd.
  apply Exists_cons_tl, Exists_cons_hd. reflexivity.
Defined.

Lemma collect_complete (training_history : history)
  (objectives : dict string) :
  Forall
    (fun tsr => Forall (fun k => get (snd tsr) k <> None) (keys objectives))
    (steps training_history) ->
  exists points, collect training_history objectives = Ok points.
Proof.
  intros Hall. apply comprehension_ok. intros [[t s] d] Hin.
  pose proof (proj1 (Forall_forall _ _) Hall _ Hin) as Hd. simpl in Hd.
  destruct (comprehension_ok (subscript d) (keys objectives)) as [row Hrow].
  - intros k Hk. unfold subscript.
    pose proof (proj1 (Forall_forall _ _) Hd k Hk) as Hget.
    cbn [snd] in Hget.
    destruct (get d k) as [x|]; [now exists x|congruence].
  - unfold objective_values. rewrite Hrow. now eexists.
Qed.

(** X3.  When every record holds a value for every objective, a spec with
    a direction other than ["MIN"] and ["MAX"] makes
    [retrieve_pareto_front] raise [ValueError], whatever the history. *)
Theorem unrecognised_direction_raises (training_history : history)
  (objectives : dict string) :
  wf objectives ->
  Exists (fun kd => ~ valid_direction (snd kd)) objectives ->
  Forall
    (fun tsr => Forall (fun k => get (snd tsr) k <> None) (keys objectives))
    (steps training_history) ->
  retrieve_pareto_front training_history objectives = Raise ValueError.
Proof.
  intros Hwf Hbad Hall.
  destruct (collect_complete _ _ Hall) as [points Hc].
  unfold retrieve_pareto_front, efficient_indices, prepare_sign_vector.
  rewrite Hc. cbn [bind].
  now rewrite (sign_entries_invalid objectives Hwf Hbad).
Qed.

Lemma unrecognised_direction_raises_witness :
  retrieve_pareto_front
    [("t", [[("a", Fin 1); ("b", Fin 2)]; [("a", Fin 3); ("b", Fin 1)]])]%string
    [("a", "MIN"); ("b", "Max")]%string
  = Raise ValueError.
Proof.
  apply unrecognised_direction_raises.
  - reflexivity.
  - apply Exists_cons_tl, Exists_cons_hd.
    unfold valid_direction. simpl. intros [H|H]; discriminate.
  - repeat (apply Forall_cons || apply Forall_nil); simpl; discriminate.
Defined.

Lemma broadcast_mul_raises_only (row : list xnum) (w : list Q)
  (e : exn) :
  broadcast_mul row w = Raise e -> e = ValueError.
Proof.
  unfold broadcast_mul.
  destruct (length row =? length w)%nat; [discriminate|].
  destruct (length w =? 1)%nat; [discriminate|].
  destruct (length row =? 1)%nat; [discriminate|now inversion 1].
Qed.

Lemma broadcast_mul_nil (w : list Q) (r : list xnum) :
  broadcast_mul [] w = Ok r -> r = [].
Proof.
  unfold broadcast_mul. cbn [length].
  destruct (0 =? length w)%nat; [intros H; inversion H; reflexivity|].
  destruct (length w =? 1)%nat; [intros H; inversion H; reflexivity|].
  discriminate.
Qed.

(** The product of line 39 keeps the kind of array and its first axis,
    and raises nothing but [ValueError]. *)
Lemma np_mul_np_array (vals : list (list xnum)) (w : list Q) :
  (exists a_vals,
      np_mul (np_array vals) w = Ok a_vals
      /\ ((vals = [] /\ a_vals = Arr1 [])
          \/ exists rows, a_vals = Arr2 rows /\ length rows = length vals))
  \/ np_mul (np_array vals) w = Raise ValueError.
Proof.
  destruct vals as [|v vals]; cbn [np_array np_mul].
  - destruct (broadcast_mul [] w) as [r|e] eqn:Hb; cbn [bind].
    + left. rewrite (broadcast_mul_nil w r Hb). eexists. split; eauto.
    + right. now rewrite (broadcast_mul_raises_only _ _ _ Hb).
  - destruct (comprehension (fun row => broadcast_mul row w) (v :: vals))
      as [rs|e] eqn:Hc; cbn [bind].
    + left. eexists. split; [reflexivity|]. right. exists rs.
      split; [reflexivity|]. exact (comprehension_length _ _ _ Hc).
    + right. f_equal. revert Hc. apply comprehension_raises_only.
      intros row e' _. apply broadcast_mul_raises_only.
Qed.

(** Lines 34-44 raise nothing but [ValueError], and the indices they
    return are indices of rows. *)
Lemma efficient_indices_outcome (vals : list (list xnum))
  (objectives : dict string) :
  (exists indices,
      efficient_indices vals objectives = Ok (np_array vals, indices)
      /\ Forall (fun e => (e < length vals)%nat) indices)
  \/ efficient_indices vals objectives = Raise ValueError.
Proof.
  unfold efficient_indices.
  destruct (prepare_sign_vector objectives) as [w|e] eqn:Hp; cbn [bind].
  - destruct (np_mul_np_array vals (np_negative w))
      as [(a_vals & -> & Hshape)| ->]; cbn [bind]; [|now right].
    left.
    assert (exists m, efficient_mask (shape0 (np_array vals)) a_vals = Ok m
                      /\ length m = length vals) as (m & -> & Hm).
    { destruct Hshape as [[-> ->]|(rows & -> & Hrows)].
      - exists []. split; reflexivity.
      - eexists. split; [reflexivity|].
        rewrite mask_loop_length. unfold np_ones. rewrite repeat_length.
        destruct vals; reflexivity. }
    cbn [bind]. eexists. split; [reflexivity|].
    apply Forall_forall. intros e He. apply In_true_indices in He.
    rewrite <- Hm. apply nth_error_Some. congruence.
  - right. now rewrite (prepare_sign_vector_raises_only objectives e Hp).
Qed.

(** X4.  [retrieve_pareto_front] either returns a front or raises
    [KeyError] (a record without the value of an objective) or
    [ValueError] (the sign vector, or the product of line 39): the indices
    it computes are always in range, so no subscript of lines 48-50
    fails. *)
Theorem retrieve_pareto_front_outcome (training_history : history)
  (objectives : dict string) :
  (exists front, retrieve_pareto_front training_history objectives = Ok front)
  \/ retrieve_pareto_front training_history objectives = Raise KeyError
  \/ retrieve_pareto_front training_history objectives = Raise ValueError.
Proof.
  unfold retrieve_pareto_front.
  destruct (collect training_history objectives) as [points|e] eqn:Hc;
    cbn [bind].
  - destruct (efficient_indices_outcome (map fst points) objectives)
      as [(indices & -> & Hrange)| ->]; cbn [bind fst snd];
      [|now right; right].
    left. apply comprehension_ok. intros e He.
    pose proof (proj1 (Forall_forall _ _) Hrange e He) as Hlt.
    rewrite length_map in Hlt.
    destruct (nth_error points e) as [[row ref]|] eqn:Hpt;
      [|apply nth_error_None in Hpt; lia].
    assert (np_array (map fst points) = Arr2 (map fst points)) as ->.
    { destruct points; [destruct e; discriminate|reflexivity]. }
    unfold emit, item. rewrite nth_error_map, Hpt. cbn [option_map bind].
    unfold enumerate. apply (set_objectives_ok (map fst points) e row).
    + now rewrite nth_error_map, Hpt.
    + unfold keys. rewrite length_map. simpl.
      apply (row_length (length objectives) (map fst points)
               (collect_matrix _ _ _ Hc) e).
      now rewrite nth_error_map, Hpt.
  - right. left. now rewrite (collect_raises_only _ _ _ Hc).
Qed.

(** ** What the masking loop keeps *)

Lemma assign_masked_false (m new : list bool) (j : nat) :
  nth j m false = false -> nth j (assign_masked m new) false = false.
Proof.
  revert new j. induction m as [|b m IH]; intros new j Hj; simpl.
  - now destruct j.
  - destruct b.
    + destruct j as [|j]; [discriminate|]. simpl in Hj.
      destruct new; simpl; now apply IH.
    + destruct j as [|j]; [reflexivity|]. simpl in *. now apply IH.
Qed.

(** X5.  The loop never marks a point again: an entry of the mask that is
    unset stays unset through every later pass, whatever the rows and the
    order of the passes. *)
Theorem mask_loop_never_readmits (a_vals : list (list xnum))
  (todo : list (nat * list xnum)) (m : list bool) (j : nat) :
  nth j m false = false ->
  nth j (mask_loop a_vals todo m) false = false.
Proof.
  revert m. induction todo as [|[i c] todo IH]; intros m Hj; simpl;
    [assumption|].
  destruct (nth i m false); apply IH; [|assumption].
  now apply assign_masked_false.
Qed.

Lemma mask_loop_never_readmits_witness :
  nth 0 (mask_loop [[Fin 2; Fin 2]; [Fin 1; Fin 3]; [Fin 0; Fin 0]]
           (enumerate [[Fin 2; Fin 2]; [Fin 1; Fin 3]; [Fin 0; Fin 0]])
           [false; true; true]) false
  = false.
Proof.
  apply (mask_loop_never_readmits
           [[Fin 2; Fin 2]; [Fin 1; Fin 3]; [Fin 0; Fin 0]]
           (enumerate [[Fin 2; Fin 2]; [Fin 1; Fin 3]; [Fin 0; Fin 0]])
           [false; true; true] 0).
  reflexivity.
Defined.

Lemma kept_inv_init (a_vals : list (list xnum)) :
  kept_inv a_vals [] (np_ones (length a_vals)).
Proof.
  split; [apply repeat_length|]. intros j p i c _ _ [].
Qed.

Lemma kept_inv_step (a_vals : list (list xnum)) (visited : list nat)
  (m : list bool) (i : nat) (c : list xnum) :
  nth_error a_vals i = Some c ->
  kept_inv a_vals visited m ->
  kept_inv a_vals (i :: visited)
    (if nth i m false
     then assign_masked m (any_le_rows (select m a_vals) c)
     else m).
Proof.
  intros Hi [Hlen Hinv].
  destruct (nth i m false) eqn:Hmi.
  - split; [now rewrite length_assign_masked|].
    intros j p i' c' Hj Hmj Hin Hi' Hmi'.
    rewrite (nth_assign_masked m a_vals c j p Hlen Hj) in Hmj.
    rewrite (nth_assign_masked m a_vals c i' c' Hlen Hi') in Hmi'.
    apply andb_true_iff in Hmj as [Hmj Hle].
    apply andb_true_iff in Hmi' as [Hmi' _].
    destruct Hin as [<-|Hin].
    + rewrite Hi in Hi'. now inversion Hi'; subst c'.
    + exact (Hinv j p i' c' Hj Hmj Hin Hi' Hmi').
  - split; [assumption|].
    intros j p i' c' Hj Hmj [<-|Hin] Hi' Hmi'; [congruence|].
    exact (Hinv j p i' c' Hj Hmj Hin Hi' Hmi').
Qed.

Lemma kept_inv_loop (a_vals : list (list xnum))
  (todo : list (nat * list xnum)) :
  Forall (fun ic => nth_error a_vals (fst ic) = Some (snd ic)) todo ->
  forall visited m,
    kept_inv a_vals visited m ->
    kept_inv a_vals (rev (map fst todo) ++ visited)
      (mask_loop a_vals todo m).
Proof.
  induction todo as [|[i c] todo IH]; simpl; intros Htodo visited m Hinv;
    [assumption|].
  inversion Htodo as [|? ? Hi Htodo']; subst. simpl in Hi.
  rewrite <- app_assoc. simpl.
  pose proof (kept_inv_step a_vals visited m i c Hi Hinv) as Hstep.
  destruct (nth i m false); now apply IH.
Qed.

Lemma In_select (m : list bool) (a_vals : list (list xnum))
  (p : list xnum) :
  In p (select m a_vals) ->
  exists j, nth_error a_vals j = Some p /\ nth j m false = true.
Proof.
  revert a_vals. induction m as [|b m IH]; intros [|r rows]; simpl;
    try contradiction.
  destruct b.
  - intros [<-|Hin]; [now exists 0%nat|].
    destruct (IH rows Hin) as (j & Hj & Hm). now exists (S j).
  - intros Hin. destruct (IH rows Hin) as (j & Hj & Hm). now exists (S j).
Qed.

Lemma length_select_le (m : list bool) (a_vals : list (list xnum)) :
  (length (select m a_vals) <= length m)%nat.
Proof.
  revert a_vals. induction m as [|b m IH]; intros [|r rows]; simpl; try lia.
  specialize (IH rows). destruct b; simpl; lia.
Qed.

(** A pass against a row that every row passes leaves an all-set mask as
    it is. *)
Lemma assign_masked_all_pass (rows : list (list xnum)) (c : list xnum) :
  (forall p, In p rows -> any_le p c = true) ->
  assign_masked (np_ones (length rows))
    (any_le_rows (select (np_ones (length rows)) rows) c)
  = np_ones (length rows).
Proof.
  induction rows as [|r rows IH]; intros Hall; [reflexivity|].
  unfold np_ones in *. simpl. rewrite (Hall r) by now left.
  f_equal. apply IH. intros p Hp. apply Hall. now right.
Qed.

Lemma mask_loop_all_pass (rows : list (list xnum))
  (todo : list (nat * list xnum)) :
  (forall p c, In p rows -> In c (map snd todo) -> any_le p c = true) ->
  mask_loop rows todo (np_ones (length rows)) = np_ones (length rows).
Proof.
  induction todo as [|[i c] todo IH]; intros Hall; simpl; [reflexivity|].
  assert (mask_loop rows todo (np_ones (length rows))
          = np_ones (length rows)) as Hrest.
  { apply IH. intros p c' Hp Hc'. apply Hall; [assumption|now right]. }
  destruct (nth i (np_ones (length rows)) false); [|assumption].
  rewrite assign_masked_all_pass; [assumption|].
  intros p Hp. apply Hall; [assumption|now left].
Qed.

(** X6.  Filtering is idempotent: when the rows that the mask keeps are
    given to the loop again, every one of them is kept. *)
Theorem survivors_all_survive (k : nat) (a_vals : list (list xnum)) :
  matrix k a_vals ->
  exists eff_mask,
    efficient_mask (length a_vals) (Arr2 a_vals) = Ok eff_mask
    /\ efficient_mask (length (select eff_mask a_vals))
         (Arr2 (select eff_mask a_vals))
       = Ok (np_ones (length (select eff_mask a_vals))).
Proof.
  intros _. eexists. split; [reflexivity|].
  set (mask := mask_loop a_vals (enumerate a_vals)
                 (np_ones (length a_vals))).
  cbn [efficient_mask]. f_equal.
  apply mask_loop_all_pass. intros p c Hp Hc.
  apply in_map_iff in Hc as ([i c'] & Heq & Hc). simpl in Heq. subst c'.
  apply In_enumerate, nth_error_In in Hc.
  destruct (In_select mask a_vals p Hp) as (j & Hj & Hmj).
  destruct (In_select mask a_vals c Hc) as (i' & Hi' & Hmi').
  destruct (kept_inv_loop a_vals (enumerate a_vals)) with
    (visited := @nil nat) (m := np_ones (length a_vals)) as [_ Hkept].
  - apply Forall_forall. intros [h q] Hin. now apply In_enumerate.
  - apply kept_inv_init.
  - apply (Hkept j p i' c Hj Hmj); [|assumption|assumption].
    rewrite app_nil_r. apply -> in_rev.
    apply in_map_iff. exists (i', c). split; [reflexivity|].
    now apply In_enumerate.
Qed.

Lemma survivors_all_survive_witness :
  exists eff_mask,
    efficient_mask 3 (Arr2 [[Fin 2; Fin 2]; [Fin 1; Fin 3]; [Fin 3; Fin 4]])
    = Ok eff_mask
    /\ efficient_mask
         (length
            (select eff_mask
               [[Fin 2; Fin 2]; [Fin 1; Fin 3]; [Fin 3; Fin 4]]))
         (Arr2
            (select eff_mask
               [[Fin 2; Fin 2]; [Fin 1; Fin 3]; [Fin 3; Fin 4]]))
       = Ok (np_ones
               (length
                  (select eff_mask
                     [[Fin 2; Fin 2]; [Fin 1; Fin 3]; [Fin 3; Fin 4]]))).
Proof.
  apply (survivors_all_survive 2
           [[Fin 2; Fin 2]; [Fin 1; Fin 3]; [Fin 3; Fin 4]]).
  repeat constructor.
Defined.

(** X7.  The front never loses a Pareto-efficient point: with recognised
    directions, at least one objective and no NaN value in the history, a
    point that no other point of the history dominates (no worse in every
    objective and strictly better in one) is retained. *)
Theorem pareto_efficient_point_retained (training_history : history)
  (objectives : dict string) (points : list (list xnum * (string * nat)))
  (i : nat) (v : list xnum) (r : string * nat) :
  wf objectives ->
  Forall (fun kd => valid_direction (snd kd)) objectives ->
  objectives <> [] ->
  collect training_history objectives = Ok points ->
  no_nan (map fst points) = true ->
  nth_error points i = Some (v, r) ->
  (forall j u rj,
      j <> i -> nth_error points j = Some (u, rj) ->
      dominates (signed objectives u) (signed objectives v) = false) ->
  exists indices,
    surviving training_history objectives = Ok indices /\ In i indices.
Proof.
  intros Hwf Hvalid Hobj Hc Hnum Hi Hfree.
  assert (points <> []) as Hne by (intros ->; destruct i; discriminate).
  destruct (surviving_iff _ _ _ Hwf Hvalid Hc Hne Hnum)
    as (indices & Hs & Hin).
  exists indices. split; [assumption|].
  apply Hin. exists v. split; [now rewrite nth_error_map, Hi|].
  intros u Hu.
  destruct (all_lt (signed objectives u) (signed objectives v)) eqn:Hlt;
    [|reflexivity].
  pose proof (collect_matrix _ _ _ Hc) as Hm.
  apply In_nth_error in Hu as [j Hj].
  assert (length v = length objectives) as Hlv.
  { apply (row_length _ _ Hm i). now rewrite nth_error_map, Hi. }
  assert (length u = length objectives) as Hlu
    by exact (row_length _ _ Hm j u Hj).
  rewrite nth_error_map in Hj.
  destruct (nth_error points j) as [[u' rj]|] eqn:Hpj; [|discriminate].
  simpl in Hj. inversion Hj; subst u'.
  destruct (Nat.eq_dec j i) as [->|Hji].
  - rewrite Hi in Hpj. inversion Hpj; subst u.
    rewrite all_lt_irrefl in Hlt; [discriminate|].
    now apply signed_nonempty.
  - rewrite <- (Hfree j u rj Hji Hpj). symmetry.
    apply all_lt_dominates; [| |assumption].
    + unfold signed.
      rewrite !length_zip_mul; rewrite ?length_signs; congruence.
    + now apply signed_nonempty.
Qed.

Lemma pareto_efficient_point_retained_witness :
  exists indices,
    surviving
      [("t", [[("a", Fin 1); ("b", Fin 1)]; [("a", Fin 1); ("b", Fin 2)]])
      ]%string
      [("a", "MIN"); ("b", "MIN")]%string
    = Ok indices
    /\ In 0%nat indices.
Proof.
  apply (pareto_efficient_point_retained
           [("t", [[("a", Fin 1); ("b", Fin 1)];
                   [("a", Fin 1); ("b", Fin 2)]])]%string
           [("a", "MIN"); ("b", "MIN")]%string
           [([Fin 1; Fin 1], ("t"%string, 1%nat));
            ([Fin 1; Fin 2], ("t"%string, 2%nat))]
           0 [Fin 1; Fin 1] ("t"%string, 1%nat)).
  - reflexivity.
  - apply Forall_cons; [now left|].
    apply Forall_cons; [now left|apply Forall_nil].
  - discriminate.
  - reflexivity.
  - reflexivity.
  - reflexivity.
  - intros j u rj Hj Hnth.
    destruct j as [|[|j]]; [congruence| |destruct j; discriminate].
    simpl in Hnth. inversion Hnth; subst. reflexivity.
Defined.

(** Among finitely many rows, one is beaten by none: strict dominance in
    every objective is transitive and, on rows with a column,
    irreflexive. *)
Lemma exists_unbeaten (k : nat) (a_vals : list (list xnum)) :
  matrix k a_vals -> (0 < k)%nat -> a_vals <> [] ->
  exists p, In p a_vals /\ forall q, In q a_vals -> all_lt q p = false.
Proof.
  intros Hm Hk. induction a_vals as [|p a IH]; [congruence|]. intros _.
  inversion Hm as [|? ? Hp Ha]; subst.
  assert (p <> []) as Hpne by (destruct p; simpl in *; [lia|discriminate]).
  destruct a as [|p' a'].
  - exists p. split; [now left|]. intros q [<-|[]].
    now apply all_lt_irrefl.
  - destruct (IH Ha) as (m & Hmin & Hfree); [discriminate|].
    assert (length m = length p) as Hlm
      by exact (proj1 (Forall_forall _ _) Ha m Hmin).
    destruct (all_lt p m) eqn:Hpm.
    + exists p. split; [now left|]. intros q [<-|Hq].
      * now apply all_lt_irrefl.
      * destruct (all_lt q p) eqn:Hqp; [|reflexivity].
        rewrite <- (Hfree q Hq). symmetry.
        apply (all_lt_trans q p m); try assumption; [|congruence].
        exact (proj1 (Forall_forall _ _) Ha q Hq).
    + exists m. split; [now right|]. intros q [<-|Hq]; [assumption|].
      now apply Hfree.
Qed.

(** X8.  The front of a history with a point is not empty, given
    recognised directions, at least one objective and no NaN value in the
    history. *)
Theorem front_not_empty (training_history : history)
  (objectives : dict string) (points : list (list xnum * (string * nat))) :
  wf objectives ->
  Forall (fun kd => valid_direction (snd kd)) objectives ->
  objectives <> [] ->
  collect training_history objectives = Ok points ->
  points <> [] ->
  no_nan (map fst points) = true ->
  exists front,
    retrieve_pareto_front training_history objectives = Ok front
    /\ front <> [].
Proof.
  intros Hwf Hvalid Hobj Hc Hne Hnum.
  destruct (surviving_iff _ _ _ Hwf Hvalid Hc Hne Hnum)
    as (indices & Hs & Hin).
  destruct (front_of_surviving _ _ _ Hwf Hvalid Hc Hne)
    as (indices' & front & Hs' & Hfront & Hlen).
  assert (indices' = indices) as -> by congruence.
  exists front. split; [assumption|].
  pose proof (collect_matrix _ _ _ Hc) as Hm.
  destruct (exists_unbeaten (length objectives)
              (map (signed objectives) (map fst points)))
    as (p & Hp & Hfree).
  - now apply signed_matrix.
  - destruct objectives; [congruence|simpl; lia].
  - destruct points; [congruence|discriminate].
  - apply in_map_iff in Hp as (v & <- & Hv).
    apply In_nth_error in Hv as [i Hi].
    assert (In i indices) as Hi'.
    { apply Hin. exists v. split; [assumption|].
      intros u Hu. apply Hfree. now apply in_map. }
    intros ->. destruct indices; [contradiction|discriminate].
Qed.

Lemma front_not_empty_witness :
  exists front,
    retrieve_pareto_front
      [("t1", [[("acc", Fin 0.9); ("latency", Fin 10)];
               [("acc", Fin 0.8); ("latency", Fin 20)]])]%string
      [("acc", "MAX"); ("latency", "MIN")]%string
    = Ok front
    /\ front <> [].
Proof.
  apply (front_not_empty
           [("t1", [[("acc", Fin 0.9); ("latency", Fin 10)];
                    [("acc", Fin 0.8); ("latency", Fin 20)]])]%string
           [("acc", "MAX"); ("latency", "MIN")]%string
           [([Fin 0.9; Fin 10], ("t1"%string, 1%nat));
            ([Fin 0.8; Fin 20], ("t1"%string, 2%nat))]).
  - reflexivity.
  - apply Forall_cons; [now right|].
    apply Forall_cons; [now left|apply Forall_nil].
  - discriminate.
  - reflexivity.
  - discriminate.
  - reflexivity.
Defined.

(** ** The sign normalisation *)

Lemma xltb_same_sign (x y : xnum) :
  xltb (xmul x (- (-1))) (xmul y (- (-1))) = xltb x y.
Proof.
  destruct x, y; try reflexivity. cbn [xmul xltb].
  apply eq_true_iff_eq. rewrite !Qlt_bool_iff. split; intros H; lra.
Qed.

Lemma xltb_flipped_sign (x y : xnum) :
  xltb (xmul x (- (1))) (xmul y (- (1))) = xltb y x.
Proof.
  destruct x, y; try reflexivity. cbn [xmul xltb].
  apply eq_true_iff_eq. rewrite !Qlt_bool_iff. split; intros H; lra.
Qed.

(** Comparing the transformed rows of line 39 is comparing the original
    values in the direction of each objective. *)
Lemma all_lt_signed (objectives : dict string) (u v : list xnum) :
  all_lt (signed objectives u) (signed objectives v)
  = better_everywhere objectives u v.
Proof.
  revert u v. induction objectives as [|[o d] objectives IH]; intros u v.
  - unfold signed, zip_mul. simpl. now rewrite !combine_nil.
  - destruct u as [|x u]; [reflexivity|].
    destruct v as [|y v].
    + unfold signed, zip_mul, all_lt. simpl. reflexivity.
    + change (all_lt (signed ((o, d) :: objectives) (x :: u))
                (signed ((o, d) :: objectives) (y :: v)))
        with (xltb (xmul x (- sign_of d)) (xmul y (- sign_of d))
              && all_lt (signed objectives u) (signed objectives v)).
      rewrite IH. cbn [better_everywhere]. f_equal.
      unfold sign_of. destruct (String.eqb d "MIN").
      * apply xltb_same_sign.
      * apply xltb_flipped_sign.
Qed.

(** X9.  The filter reads each objective in its own direction.  With
    recognised directions and no NaN value in the history, a point is
    retained exactly when no point of the history is strictly better in
    every objective on the original float values: strictly smaller for an
    objective marked ["MIN"], strictly larger for one marked ["MAX"]. *)
Theorem retained_iff_unbeaten (training_history : history)
  (objectives : dict string) (points : list (list xnum * (string * nat)))
  (i : nat) (v : list xnum) (r : string * nat) :
  wf objectives ->
  Forall (fun kd => valid_direction (snd kd)) objectives ->
  collect training_history objectives = Ok points ->
  no_nan (map fst points) = true ->
  nth_error points i = Some (v, r) ->
  exists indices,
    surviving training_history objectives = Ok indices
    /\ (In i indices
        <-> forall u, In u (map fst points) ->
              better_everywhere objectives u v = false).
Proof.
  intros Hwf Hvalid Hc Hnum Hi.
  assert (points <> []) as Hne by (intros ->; destruct i; discriminate).
  destruct (surviving_iff _ _ _ Hwf Hvalid Hc Hne Hnum)
    as (indices & Hs & Hin).
  exists indices. split; [assumption|].
  rewrite Hin, nth_error_map, Hi. simpl. split.
  - intros (v' & Hv & Hall) u Hu. inversion Hv; subst v'.
    rewrite <- all_lt_signed. now apply Hall.
  - intros Hall. exists v. split; [reflexivity|]. intros u Hu.
    rewrite all_lt_signed. now apply Hall.
Qed.

Lemma retained_iff_unbeaten_witness :
  exists indices,
    surviving
      [("t1", [[("acc", Fin 0.9); ("latency", Fin 10)];
               [("acc", Fin 0.8); ("latency", Fin 20)]])]%string
      [("acc", "MAX"); ("latency", "MIN")]%string
    = Ok indices
    /\ (In 1%nat indices
        <-> forall u,
              In u (map fst [([Fin 0.9; Fin 10], ("t1"%string, 1%nat));
                             ([Fin 0.8; Fin 20], ("t1"%string, 2%nat))]) ->
              better_everywhere [("acc", "MAX"); ("latency", "MIN")]%string
                u [Fin 0.8; Fin 20]
              = false).
Proof.
  apply (retained_iff_unbeaten
           [("t1", [[("acc", Fin 0.9); ("latency", Fin 10)];
                    [("acc", Fin 0.8); ("latency", Fin 20)]])]%string
           [("acc", "MAX"); ("latency", "MIN")]%string
           [([Fin 0.9; Fin 10], ("t1"%string, 1%nat));
            ([Fin 0.8; Fin 20], ("t1"%string, 2%nat))]
           1 [Fin 0.8; Fin 20] ("t1"%string, 2%nat)).
  - reflexivity.
  - apply Forall_cons; [now right|].
    apply Forall_cons; [now left|apply Forall_nil].
  - reflexivity.
  - reflexivity.
  - reflexivity.
Defined.

(** X10.  With a single objective and no NaN value the front is the set
    of optimal points: a point is retained exactly when its float value is
    the smallest of the history under ["MIN"], the largest under ["MAX"];
    ties are all retained. *)
Theorem single_objective_front (training_history : history)
  (o d : string) (points : list (list xnum * (string * nat)))
  (i : nat) (x : xnum) (r : string * nat) :
  valid_direction d ->
  collect training_history [(o, d)] = Ok points ->
  no_nan (map fst points) = true ->
  nth_error points i = Some ([x], r) ->
  exists indices,
    surviving training_history [(o, d)] = Ok indices
    /\ (In i indices
        <-> forall y ry,
              In ([y], ry) points ->
              if String.eqb d "MIN" then xleb x y = true
              else xleb y x = true).
Proof.
  intros Hd Hc Hnum Hi.
  assert (wf [(o, d)]) as Hwf by reflexivity.
  assert (Forall (fun kd => valid_direction (snd kd)) [(o, d)]) as Hvalid
    by (apply Forall_cons; [assumption|apply Forall_nil]).
  assert (points <> []) as Hne by (intros ->; destruct i; discriminate).
  destruct (surviving_iff _ _ _ Hwf Hvalid Hc Hne Hnum)
    as (indices & Hs & Hin).
  pose proof (collect_matrix _ _ _ Hc) as Hm.
  assert (number x = true) as Hx.
  { assert (forallb number [x] = true) as H.
    { apply (no_nan_nth (map fst points) i); [assumption|].
      now rewrite nth_error_map, Hi. }
    simpl in H. now rewrite andb_true_r in H. }
  assert (forall y, number y = true ->
            (better_everywhere [(o, d)] [y] [x] = false
             <-> if String.eqb d "MIN" then xleb x y = true
                 else xleb y x = true))
    as Hbetter.
  { intros y Hy. cbn [better_everywhere]. rewrite andb_true_r.
    destruct (String.eqb d "MIN");
      rewrite xltb_not_le, negb_false_iff by assumption; reflexivity. }
  assert (forall y ry, In ([y], ry) points -> number y = true) as Hnumber.
  { intros y ry Hy.
    assert (forallb number [y] = true) as H.
    { apply (proj1 (forallb_forall _ _) Hnum).
      apply in_map_iff. now exists ([y], ry). }
    simpl in H. now rewrite andb_true_r in H. }
  exists indices. split; [assumption|].
  rewrite Hin, nth_error_map, Hi. simpl. split.
  - intros (v & Hv & Hall) y ry Hy. inversion Hv; subst v.
    apply (Hbetter y (Hnumber y ry Hy)). rewrite <- all_lt_signed.
    apply Hall. apply in_map_iff. now exists ([y], ry).
  - intros Hall. exists [x]. split; [reflexivity|]. intros u Hu.
    pose proof (proj1 (Forall_forall _ _) Hm u Hu) as Hlen.
    destruct u as [|y [|z u]]; try discriminate.
    apply in_map_iff in Hu as ([u' ry] & Heq & Hu). simpl in Heq. subst u'.
    rewrite all_lt_signed. apply (Hbetter y (Hnumber y ry Hu)).
    exact (Hall y ry Hu).
Qed.

Lemma single_objective_front_witness :
  exists indices,
    surviving
      [("t", [[("acc", Fin 0.8)]; [("acc", Fin 0.9)]; [("acc", Fin 0.9)]])
      ]%string
      [("acc", "MAX")]%string
    = Ok indices
    /\ (In 1%nat indices
        <-> forall y ry,
              In ([y], ry)
                [([Fin 0.8], ("t"%string, 1%nat));
                 ([Fin 0.9], ("t"%string, 2%nat));
                 ([Fin 0.9], ("t"%string, 3%nat))] ->
              if String.eqb "MAX" "MIN" then xleb (Fin 0.9) y = true
              else xleb y (Fin 0.9) = true).
Proof.
  apply (single_objective_front
           [("t", [[("acc", Fin 0.8)]; [("acc", Fin 0.9)];
                   [("acc", Fin 0.9)]])]%string
           "acc"%string "MAX"%string
           [([Fin 0.8], ("t"%string, 1%nat));
            ([Fin 0.9], ("t"%string, 2%nat));
            ([Fin 0.9], ("t"%string, 3%nat))]
           1 (Fin 0.9) ("t"%string, 2%nat)).
  - now right.
  - reflexivity.
  - reflexivity.
  - reflexivity.
Defined.

(** ** The order of the front *)

Lemma true_indices_from (m : list bool) (s : nat) :
  StronglySorted lt (map fst (filter snd (combine (seq s (length m)) m)))
  /\ Forall (fun e => (s <= e)%nat)
       (map fst (filter snd (combine (seq s (length m)) m))).
Proof.
  revert s. induction m as [|b m IH]; intros s; simpl.
  - split; constructor.
  - destruct (IH (S s)) as [Hsorted Hlow].
    assert (Forall (fun e => (s <= e)%nat)
              (map fst (filter snd (combine (seq (S s) (length m)) m))))
      as Hlow'.
    { revert Hlow. apply Forall_impl. intros e He. lia. }
    destruct b; simpl; [|now split].
    split.
    + constructor; [assumption|]. revert Hlow. apply Forall_impl.
      intros e He. lia.
    + constructor; [lia|assumption].
Qed.

(** X11.  The front follows the order of the flattening: the indices of
    the retained points are strictly increasing, so no point is emitted
    twice, and each is the index of a step of the history. *)
Theorem surviving_increasing (training_history : history)
  (objectives : dict string) (indices : list nat) :
  surviving training_history objectives = Ok indices ->
  StronglySorted lt indices
  /\ Forall (fun e => (e < length (steps training_history))%nat) indices.
Proof.
  unfold surviving.
  destruct (collect training_history objectives) as [points|] eqn:Hc;
    [|discriminate].
  cbn [bind]. apply comprehension_length in Hc. rewrite <- Hc.
  unfold efficient_indices.
  destruct (efficient_indices_outcome (map fst points) objectives)
    as [(indices' & He & Hrange)| He].
  - fold (efficient_indices (map fst points) objectives). rewrite He.
    cbn [bind snd]. intros H. inversion H; subst indices'.
    rewrite length_map in Hrange. split; [|assumption].
    unfold efficient_indices in He.
    destruct (prepare_sign_vector objectives) as [w|]; [|discriminate].
    cbn [bind] in He.
    destruct (np_mul _ _) as [a|]; [|discriminate]. cbn [bind] in He.
    destruct (efficient_mask _ _) as [m|]; [|discriminate].
    cbn [bind] in He. inversion He; subst indices.
    apply (true_indices_from m 0).
  - fold (efficient_indices (map fst points) objectives). rewrite He.
    discriminate.
Qed.

Lemma surviving_increasing_witness :
  StronglySorted lt [0; 2]%nat
  /\ Forall
       (fun e =>
          lt e
            (length
               (steps
                  [("t1", [[("a", Fin 1); ("b", Fin 3)];
                           [("a", Fin 2); ("b", Fin 4)]]);
                   ("t2", [[("a", Fin 3); ("b", Fin 1)]])]%string)))
       [0; 2]%nat.
Proof.
  apply (surviving_increasing
           [("t1", [[("a", Fin 1); ("b", Fin 3)];
                    [("a", Fin 2); ("b", Fin 4)]]);
            ("t2", [[("a", Fin 3); ("b", Fin 1)]])]%string
           [("a", "MIN"); ("b", "MIN")]%string [0; 2]%nat).
  reflexivity.
Defined.

(** ** Records with further keys *)

Lemma comprehension_Forall2_ext {A A' B : Type} (f : A -> result B)
  (g : A' -> result B) (l : list A) (l' : list A') :
  Forall2 (fun a a' => f a = g a') l l' ->
  comprehension f l = comprehension g l'.
Proof.
  induction 1 as [|a a' l l' Hfg _ IH]; simpl; [reflexivity|].
  now rewrite Hfg, IH.
Qed.

Lemma Forall2_combine_seq {A : Type} (R : A -> A -> Prop) (l l' : list A) :
  Forall2 R l l' ->
  forall s,
    Forall2 (fun sr sr' => fst sr = fst sr' /\ R (snd sr) (snd sr'))
      (combine (seq s (length l)) l) (combine (seq s (length l')) l').
Proof.
  induction 1 as [|a a' l l' HR _ IH]; intros s; simpl; constructor.
  - now split.
  - apply IH.
Qed.

(** Two records that hold the same value, or none, for every objective. *)
Lemma objective_values_agree (objectives : dict string) (d d' : dict xnum) :
  (forall k, In k (keys objectives) -> get d k = get d' k) ->
  objective_values objectives d = objective_values objectives d'.
Proof.
  intros Hagree. apply comprehension_ext_in. intros k Hk.
  unfold subscript. now rewrite (Hagree k Hk).
Qed.

(** X12.  Only the values of the objectives count.  Two histories with the
    same tasks and the same number of steps, whose records agree on every
    objective key, have the same front (or raise the same exception),
    whatever else the records hold. *)
Theorem front_ignores_other_keys (training_history other : history)
  (objectives : dict string) :
  Forall2
    (fun task task' =>
       fst task = fst task'
       /\ Forall2
            (fun d d' =>
               forall k, In k (keys objectives) -> get d k = get d' k)
            (snd task) (snd task'))
    training_history other ->
  retrieve_pareto_front training_history objectives
  = retrieve_pareto_front other objectives.
Proof.
  intros Hsame. unfold retrieve_pareto_front.
  assert (collect training_history objectives = collect other objectives)
    as ->; [|reflexivity].
  apply comprehension_Forall2_ext. unfold steps.
  induction Hsame as [|[t res] [t' res'] l l' [Ht Hres] _ IH]; simpl;
    [constructor|].
  simpl in Ht, Hres. subst t'. apply Forall2_app; [|exact IH].
  unfold enumerate.
  pose proof (Forall2_combine_seq _ _ _ Hres 0) as Hen.
  clear -Hen. induction Hen as [|[s d] [s' d'] e e' [Hs Hd] _ IH]; simpl;
    constructor; [|exact IH].
  simpl in Hs, Hd. subst s'.
  now rewrite (objective_values_agree objectives d d' Hd).
Qed.

Lemma front_ignores_other_keys_witness :
  retrieve_pareto_front
    [("t", [[("epoch", Fin 1); ("a", Fin 2)];
            [("epoch", Fin 2); ("a", Fin 1)]])]%string
    [("a", "MIN")]%string
  = retrieve_pareto_front
      [("t", [[("a", Fin 2)]; [("a", Fin 1); ("time", Fin 7)]])]%string
      [("a", "MIN")]%string.
Proof.
  apply front_ignores_other_keys.
  apply Forall2_cons; [|apply Forall2_nil]. split; [reflexivity|].
  simpl.
  apply Forall2_cons; [|apply Forall2_cons; [|apply Forall2_nil]];
    intros k [<-|[]]; reflexivity.
Defined.

(** ** Outcomes of the sampler *)

(** X13.  For every generator the sampler returns a vector of [dim]
    entries or raises: [IndexError] exactly when [dim] is 0 (the
    subscript [uni[-1]] of an empty array), and otherwise nothing but the
    [AssertionError] of its self-check. *)
Theorem sampler_outcome (rng : nat -> Q) (dim : nat) :
  (uniform_from_unit_simplex rng dim = Raise IndexError <-> dim = 0%nat)
  /\ ((exists sample,
          uniform_from_unit_simplex rng dim = Ok sample
          /\ length sample = dim)
      \/ uniform_from_unit_simplex rng dim = Raise IndexError
      \/ uniform_from_unit_simplex rng dim = Raise AssertionError).
Proof.
  destruct dim as [|n].
  - split; [split; reflexivity|]. right. left. reflexivity.
  - assert (random_uniform rng (S n) <> []) as Hne.
    { apply length_nonempty. rewrite random_uniform_length. lia. }
    unfold uniform_from_unit_simplex.
    rewrite (normalized_gaps_eq _ Hne). cbn [bind].
    match goal with
    | |- context [integrity_check ?s] =>
        assert (length s = S n) as Hlen;
        [|destruct (integrity_check s)]
    end.
    + unfold np_diff_prepend0.
      rewrite length_map, np_diff_length, np_sort_length.
      apply random_uniform_length.
    + split; [split; discriminate|]. left. eexists. split; [reflexivity|].
      exact Hlen.
    + split; [split; discriminate|]. right. right. reflexivity.
Qed.

(** X14.  In dimension 1 every positive draw gives the vector [[1.0]]. *)
Theorem sampler_dimension_one (rng : nat -> Q) :
  0 < rng 0%nat ->
  exists q, uniform_from_unit_simplex rng 1 = Ok [Fin q] /\ q == 1.
Proof.
  intros Hpos. exists ((rng 0%nat - 0) / rng 0%nat).
  assert ((rng 0%nat - 0) / rng 0%nat == 1) as Hone by (field; lra).
  split; [|assumption].
  unfold uniform_from_unit_simplex, normalized_gaps, random_uniform.
  cbn [seq map np_sort insert np_diff_prepend0 np_diff last_item last bind].
  rewrite (xdiv_pos _ _ Hpos).
  unfold integrity_check, py_sum. cbn [fold_left xadd xsub xlt].
  assert (Qlt_bool (0 + (rng 0%nat - 0) / rng 0%nat - 1) 1e-6 = true) as ->;
    [|reflexivity].
  apply Qlt_bool_iff. rewrite Hone. reflexivity.
Qed.

Lemma sampler_dimension_one_witness :
  exists q, uniform_from_unit_simplex (fun _ => 0.25) 1 = Ok [Fin q] /\ q == 1.
Proof.
  apply (sampler_dimension_one (fun _ => 0.25)). reflexivity.
Defined.

Lemma py_sum_bound (sample : list xnum) :
  Forall (fun x => exists q, x = Fin q /\ 0 <= q) sample ->
  forall acc s,
    fold_left xadd sample (Fin acc) = Fin s ->
    acc <= s /\ forall q, In (Fin q) sample -> acc + q <= s.
Proof.
  induction 1 as [|x rest (q0 & -> & Hq0) _ IH]; intros acc s Hsum.
  - simpl in Hsum. inversion Hsum; subst. split; [apply Qle_refl|].
    intros q [].
  - cbn [fold_left xadd] in Hsum.
    destruct (IH (acc + q0) s Hsum) as [Hacc Hrest]. split; [lra|].
    intros q [Hq|Hq].
    + inversion Hq; subst q. exact Hacc.
    + pose proof (Hrest q Hq). lra.
Qed.

(** X15.  The entries of a returned sample are weights: with draws from
    the half-open interval from 0 to 1 whose largest is positive, every
    entry lies between 0 and 1. *)
Theorem sampler_weights (rng : nat -> Q) (dim : nat) :
  (1 <= dim)%nat ->
  (forall i, (i < dim)%nat -> 0 <= rng i /\ rng i < 1) ->
  0 < largest (random_uniform rng dim) ->
  exists sample,
    uniform_from_unit_simplex rng dim = Ok sample
    /\ Forall (fun x => exists q, x = Fin q /\ 0 <= q /\ q <= 1) sample.
Proof.
  intros Hdim Hrange Hpos.
  destruct (sampler_positive rng dim Hdim Hrange Hpos)
    as (sample & Hok & _ & Hnonneg & s & Hsum & Hone).
  exists sample. split; [assumption|].
  destruct (py_sum_bound sample Hnonneg 0 s Hsum) as [_ Hbound].
  apply Forall_forall. intros x Hx.
  destruct (proj1 (Forall_forall _ _) Hnonneg x Hx) as (q & -> & Hq).
  exists q. split; [reflexivity|]. split; [assumption|].
  pose proof (Hbound q Hx). lra.
Qed.

Lemma sampler_weights_witness :
  exists sample,
    uniform_from_unit_simplex (fun i => nth i [0.5; 0.25; 0.75] 0) 3
    = Ok sample
    /\ Forall (fun x => exists q, x = Fin q /\ 0 <= q /\ q <= 1) sample.
Proof.
  apply (sampler_weights (fun i => nth i [0.5; 0.25; 0.75] 0) 3).
  - lia.
  - intros i Hi. destruct i as [|[|[|i]]]; simpl; try lia; split; lra.
  - reflexivity.
Defined.
